(** * Statistical-genetics kernels: colocalisation, harmonisation, RAISS

    A shallow embedding of the numerical kernels of the pipeline:

    - [otg/method/colocalisation.py]      (modules [ECaviar] and [Coloc]),
    - [etl/gwas_ingest/effect_harmonization.py] (module [Harmonise]),
    - [gentropy/method/sumstat_imputation.py]   (module [Raiss]),
    - [otg/datasource/gwas_catalog/study_index.py] (module [StudyIndex]),
    - [otg/dataset/study_index.py]        (module [StudyIndexDataset]).

    Conventions.  A Spark [DoubleType] column and a NumPy [float64] entry are
    modelled as a real number ([R]) with exact arithmetic; a nullable column
    is an [option]; a DataFrame is a list of rows.  Spark's SQL semantics of
    null (null-propagating arithmetic, three-valued logic, aggregates that
    skip nulls, [log] of a non-positive number is null) are written out in
    module [Spark].  The cast of a p-value to [FloatType] models the
    rounding explicitly. *)

From Stdlib Require Import Reals Lra Lia ZArith List String Ascii Bool.
Import ListNotations.

Open Scope R_scope.

(* ================================================================== *)
(** ** Spark SQL column semantics *)
(* ================================================================== *)

Module Spark.

(** Binary arithmetic on nullable columns: null if either side is null. *)
Definition lift2 {A B C : Type} (op : A -> B -> C)
           (x : option A) (y : option B) : option C :=
  match x, y with
  | Some a, Some b => Some (op a b)
  | _, _ => None
  end.

Definition mul : option R -> option R -> option R := lift2 Rmult.
Definition add : option R -> option R -> option R := lift2 Rplus.
Definition sub : option R -> option R -> option R := lift2 Rminus.

(** [a / b]: null when the divisor is zero. *)
Definition div (x y : option R) : option R :=
  match x, y with
  | Some a, Some b => if Req_dec_T b 0 then None else Some (a / b)
  | _, _ => None
  end.

(** [f.log]: the natural logarithm, null for a non-positive argument. *)
Definition log (x : option R) : option R :=
  match x with
  | Some a => if Rlt_dec 0 a then Some (ln a) else None
  | None => None
  end.

(** [f.log2]. *)
Definition log2 (x : option R) : option R :=
  match x with
  | Some a => if Rlt_dec 0 a then Some (ln a / ln 2) else None
  | None => None
  end.

(** [fillna(v)] on one column. *)
Definition fillna {A : Type} (v : A) (x : option A) : option A :=
  match x with
  | Some a => Some a
  | None => Some v
  end.

(** One step of the [sum] aggregate: a null input leaves the buffer as it
    is, a value is added to the buffer, read as 0 while still null. *)
Definition sum_step (acc x : option R) : option R :=
  match x with
  | None => acc
  | Some v => Some (match acc with None => v | Some a => a + v end)
  end.

(** [f.sum(col)] over the rows of one group; the buffer starts null. *)
Definition sum (col : list (option R)) : option R :=
  fold_left sum_step col None.

(** [f.count("*")]: every row of the group, nulls included. *)
Definition count_star {A : Type} (rows : list A) : Z :=
  Z.of_nat (List.length rows).

(** [df.groupBy(key)]: one group per distinct key, holding the rows of
    that key in their order of appearance. *)
Definition groupBy {K A : Type} (dec : forall x y : K, {x = y} + {x <> y})
           (key : A -> K) (df : list A) : list (K * list A) :=
  map (fun k => (k, filter (fun r => if dec (key r) k then true else false) df))
      (nodup dec (map key df)).

(** Three-valued logic of SQL conditions. *)
Definition or3 (x y : option bool) : option bool :=
  match x, y with
  | Some true, _ | _, Some true => Some true
  | Some false, Some false => Some false
  | _, _ => None
  end.

Definition and3 (x y : option bool) : option bool :=
  match x, y with
  | Some false, _ | _, Some false => Some false
  | Some true, Some true => Some true
  | _, _ => None
  end.

Definition not3 (x : option bool) : option bool := option_map negb x.

(** A [when] branch is taken only when its condition is true (not when it
    is false or null). *)
Definition holds (c : option bool) : bool :=
  match c with
  | Some true => true
  | _ => false
  end.

(** The values present in a column, in order. *)
Fixpoint present {A : Type} (col : list (option A)) : list A :=
  match col with
  | [] => []
  | Some v :: rest => v :: present rest
  | None :: rest => present rest
  end.

(** Sum of a list of reals. *)
Definition total (l : list R) : R := fold_right Rplus 0 l.

End Spark.

(* ================================================================== *)
(** ** The overlap table shared by both colocalisation methods *)
(* ================================================================== *)

(** One row of [StudyLocusOverlap]: a tag variant shared by the left and
    the right study locus, with the statistics of either side. *)
Record OverlapRow : Type := mkOverlapRow {
  chromosome : string;
  left_studyLocusId : Z;
  right_studyLocusId : Z;
  tagVariantId : string;
  left_logABF : option R;
  right_logABF : option R;
  left_posteriorProbability : option R;
  right_posteriorProbability : option R
}.

(* ================================================================== *)
(** ** eCAVIAR *)
(* ================================================================== *)

Module ECaviar.

Record Colocalisation : Type := mkColocalisation {
  res_left : Z;
  res_right : Z;
  coloc_n_vars : Z;
  clpp : option R;
  colocalisationMethod : string
}.

(** [ECaviar._get_clpp]: [left_pp * right_pp]. *)
Definition _get_clpp (left_pp right_pp : option R) : option R :=
  Spark.mul left_pp right_pp.

Definition pair_key (row : OverlapRow) : Z * Z :=
  (left_studyLocusId row, right_studyLocusId row).

Definition pair_key_dec (x y : Z * Z) : {x = y} + {x <> y}.
Proof. decide equality; apply Z.eq_dec. Defined.

(** The per-row column [clpp] added by [withColumn]. *)
Definition row_clpp (row : OverlapRow) : option R :=
  _get_clpp (left_posteriorProbability row) (right_posteriorProbability row).

(** [ECaviar.colocalise]. *)
Definition colocalise (overlapping_signals : list OverlapRow)
  : list Colocalisation :=
  map (fun g : (Z * Z) * list OverlapRow =>
         {| res_left := fst (fst g);
            res_right := snd (fst g);
            coloc_n_vars := Spark.count_star (snd g);
            clpp := Spark.sum (map row_clpp (snd g));
            colocalisationMethod := "eCAVIAR" |})
      (Spark.groupBy pair_key_dec pair_key overlapping_signals).

(** The rows of the overlap table that belong to the pair [(l, r)]. *)
Definition pair_rows (df : list OverlapRow) (l r : Z) : list OverlapRow :=
  filter (fun row => if pair_key_dec (pair_key row) (l, r) then true else false)
         df.

(** Both posterior probabilities of the row are present. *)
Definition both_present (row : OverlapRow) : Prop :=
  left_posteriorProbability row <> None /\
  right_posteriorProbability row <> None.

(** Either posterior probability of the row is null. *)
Definition null_side (row : OverlapRow) : Prop :=
  left_posteriorProbability row = None \/
  right_posteriorProbability row = None.

(** What a row adds to the sum: the product of its two posterior
    probabilities, nothing when one of them is null. *)
Definition contribution (row : OverlapRow) : R :=
  match left_posteriorProbability row, right_posteriorProbability row with
  | Some a, Some b => a * b
  | _, _ => 0
  end.

(** Sum of the products of two vectors of posterior probabilities. *)
Definition sum_of_products (left_pp right_pp : list R) : R :=
  Spark.total (map (fun p : R * R => fst p * snd p) (combine left_pp right_pp)).

(** Three tag variants shared by the loci 1 and 2, with the posterior
    probabilities 0.5, 0.4 and 0.1 on both sides. *)
Definition overlap_row (v : string) (l r : Z) (lpp rpp : option R) : OverlapRow :=
  {| chromosome := "1"; left_studyLocusId := l; right_studyLocusId := r;
     tagVariantId := v; left_logABF := None; right_logABF := None;
     left_posteriorProbability := lpp; right_posteriorProbability := rpp |}.

Definition three_shared_variants : list OverlapRow :=
  [ overlap_row "snp1" 1 2 (Some (5 / 10)) (Some (5 / 10));
    overlap_row "snp2" 1 2 (Some (4 / 10)) (Some (4 / 10));
    overlap_row "snp3" 1 2 (Some (1 / 10)) (Some (1 / 10)) ].

(** Two rows of one pair: a variant with both sides present, and a
    variant the right locus has no posterior probability for. *)
Definition one_null_side : list OverlapRow :=
  [ overlap_row "snp1" 1 2 (Some (1 / 2)) (Some (1 / 2));
    overlap_row "snp2" 1 2 (Some (1 / 4)) None ].

End ECaviar.

(* ================================================================== *)
(** ** COLOC *)
(* ================================================================== *)

Module Coloc.

(** [np.max] of a non-empty vector. *)
Definition np_max (v : list R) : R :=
  match v with
  | [] => 0
  | x :: rest => fold_left Rmax rest x
  end.

(** [np.sum]. *)
Definition np_sum (v : list R) : R := fold_left Rplus v 0.

(** [Coloc._get_logsum]:
    [themax + np.log(np.sum(np.exp(log_abf - themax)))]. *)
Definition _get_logsum (log_abf : list R) : R :=
  let themax := np_max log_abf in
  themax + ln (np_sum (map (fun x => exp (x - themax)) log_abf)).

(** [Coloc._get_posteriors]: [np.exp(all_abfs - _get_logsum(all_abfs))]. *)
Definition _get_posteriors (all_abfs : list R) : list R :=
  let ls := _get_logsum all_abfs in
  map (fun x => exp (x - ls)) all_abfs.

Record Colocalisation : Type := mkColocalisation {
  res_chromosome : string;
  res_left : Z;
  res_right : Z;
  coloc_n_vars : Z;
  coloc_h0 : R;
  coloc_h1 : R;
  coloc_h2 : R;
  coloc_h3 : R;
  coloc_h4 : R;
  coloc_log2_h4_h3 : option R;
  colocalisationMethod : string
}.

(** What the pipeline makes of one group of the overlap table. *)
Inductive Outcome : Type :=
| Filtered
    (** dropped by [.filter(sumlogsum != logsum12)] *)
| NullEvidence
    (** a log-evidence is null, so [allABF] holds no vector of five
        numbers and no posterior is defined *)
| Emitted (row : Colocalisation).

Definition group_key (row : OverlapRow) : string * Z * Z :=
  (chromosome row, left_studyLocusId row, right_studyLocusId row).

Definition group_key_dec (x y : string * Z * Z) : {x = y} + {x <> y}.
Proof. repeat decide equality. Defined.

(** A log-ABF column after [.fillna(0, ...)]. *)
Definition filled (x : option R) : R :=
  match Spark.fillna 0 x with Some v => v | None => 0 end.

Definition nth5 (v : list R) (i : nat) : R := nth i v 0.

(** The column expressions of [Coloc.colocalise] for one group
    [(chromosome, left_studyLocusId, right_studyLocusId)]. *)
Definition colocalise_group (priorc1 priorc2 priorc12 : R)
           (key : string * Z * Z) (rows : list OverlapRow) : Outcome :=
  let left := map (fun row => filled (left_logABF row)) rows in
  let right := map (fun row => filled (right_logABF row)) rows in
  let sum_log_abf :=
    map (fun row => filled (left_logABF row) + filled (right_logABF row)) rows in
  let logsum1 := _get_logsum left in
  let logsum2 := _get_logsum right in
  let logsum12 := _get_logsum sum_log_abf in
  let lH0abf := Some 0 in
  let lH1abf := Spark.add (Spark.log (Some priorc1)) (Some logsum1) in
  let lH2abf := Spark.add (Spark.log (Some priorc2)) (Some logsum2) in
  let sumlogsum := logsum1 + logsum2 in
  if Req_dec_T sumlogsum logsum12 then Filtered
  else
    let max := Rmax sumlogsum logsum12 in
    let logdiff :=
      Spark.add (Some max)
                (Spark.log (Some (exp (sumlogsum - max) - exp (logsum12 - max)))) in
    let lH3abf :=
      Spark.add (Spark.add (Spark.log (Some priorc1)) (Spark.log (Some priorc2)))
                logdiff in
    let lH4abf := Spark.add (Spark.log (Some priorc12)) (Some logsum12) in
    match lH0abf, lH1abf, lH2abf, lH3abf, lH4abf with
    | Some l0, Some l1, Some l2, Some l3, Some l4 =>
        let posteriors := _get_posteriors [l0; l1; l2; l3; l4] in
        let h3 := nth5 posteriors 3 in
        let h4 := nth5 posteriors 4 in
        Emitted {| res_chromosome := fst (fst key);
                   res_left := snd (fst key);
                   res_right := snd key;
                   coloc_n_vars := Spark.count_star rows;
                   coloc_h0 := nth5 posteriors 0;
                   coloc_h1 := nth5 posteriors 1;
                   coloc_h2 := nth5 posteriors 2;
                   coloc_h3 := h3;
                   coloc_h4 := h4;
                   coloc_log2_h4_h3 :=
                     Spark.log2 (Spark.div (Some h4) (Some h3));
                   colocalisationMethod := "COLOC" |}
    | _, _, _, _, _ => NullEvidence
    end.

(** [Coloc.colocalise]: every group with what becomes of it. *)
Definition colocalise_outcomes (df : list OverlapRow)
           (priorc1 priorc2 priorc12 : R) : list (string * Z * Z * Outcome) :=
  map (fun g => (fst g, colocalise_group priorc1 priorc2 priorc12 (fst g) (snd g)))
      (Spark.groupBy group_key_dec group_key df).

Fixpoint emitted (l : list (string * Z * Z * Outcome)) : list Colocalisation :=
  match l with
  | [] => []
  | (_, Emitted row) :: rest => row :: emitted rest
  | _ :: rest => emitted rest
  end.

(** The rows of the returned table. *)
Definition colocalise (df : list OverlapRow)
           (priorc1 priorc2 priorc12 : R) : list Colocalisation :=
  emitted (colocalise_outcomes df priorc1 priorc2 priorc12).

(** The rows of the table that belong to one group. *)
Definition group_rows (df : list OverlapRow) (key : string * Z * Z)
  : list OverlapRow :=
  filter (fun row => if group_key_dec (group_key row) key then true else false)
         df.

(** The overlap of the test of a single shared variant: loci 1 and 2 on
    chromosome 1, log-ABF 10.3 on the left and 10.5 on the right. *)
Definition single_snp_row : OverlapRow :=
  {| chromosome := "1"; left_studyLocusId := 1; right_studyLocusId := 2;
     tagVariantId := "snp";
     left_logABF := Some (103 / 10); right_logABF := Some (105 / 10);
     left_posteriorProbability := None;
     right_posteriorProbability := None |}.

Definition single_snp_overlap : list OverlapRow := [single_snp_row].

(** An overlap of two shared variants; the second has no log-ABF on
    either side. *)
Definition two_shared_variants : list OverlapRow :=
  [ {| chromosome := "1"; left_studyLocusId := 1; right_studyLocusId := 2;
       tagVariantId := "snp1";
       left_logABF := Some (103 / 10); right_logABF := Some (105 / 10);
       left_posteriorProbability := None;
       right_posteriorProbability := None |};
    {| chromosome := "1"; left_studyLocusId := 1; right_studyLocusId := 2;
       tagVariantId := "snp2";
       left_logABF := None; right_logABF := None;
       left_posteriorProbability := None;
       right_posteriorProbability := None |} ].

(** The default priors of the signature. *)
Definition default_priorc1 : R := 1 / 10000.
Definition default_priorc2 : R := 1 / 10000.
Definition default_priorc12 : R := 1 / 100000.

End Coloc.

(* ================================================================== *)
(** ** Effect harmonisation *)
(* ================================================================== *)

Module Harmonise.

Local Open Scope string_scope.

(** *** Alleles *)

Definition is_ACTG (c : ascii) : bool :=
  (Ascii.eqb c "A" || Ascii.eqb c "C" || Ascii.eqb c "T" || Ascii.eqb c "G")%bool.

(** [allele.rlike("[ACTG]+")]: the pattern is searched for, so it holds
    as soon as one character of the string is among [ACTG]. *)
Fixpoint rlike_ACTG (s : string) : bool :=
  match s with
  | EmptyString => false
  | String c rest => (is_ACTG c || rlike_ACTG rest)%bool
  end.

Definition translate_char (c : ascii) : ascii :=
  if Ascii.eqb c "A" then "T"%char
  else if Ascii.eqb c "C" then "G"%char
  else if Ascii.eqb c "T" then "A"%char
  else if Ascii.eqb c "G" then "C"%char
  else c.

(** [f.translate(allele, "ACTG", "TGAC")]. *)
Fixpoint translate (s : string) : string :=
  match s with
  | EmptyString => EmptyString
  | String c rest => String (translate_char c) (translate rest)
  end.

(** [f.reverse]. *)
Fixpoint reverse (s : string) : string :=
  match s with
  | EmptyString => EmptyString
  | String c rest => reverse rest ++ String c EmptyString
  end.

(** [_get_reverse_complement] on a non-null allele. *)
Definition reverse_complement (allele : string) : string :=
  if rlike_ACTG allele then reverse (translate allele) else allele.

(** [_get_reverse_complement]: on a null allele the [rlike] condition is
    null, the [otherwise] branch returns the (null) allele. *)
Definition _get_reverse_complement (allele_col : option string)
  : option string :=
  match allele_col with
  | Some a => Some (reverse_complement a)
  | None => None
  end.

(** Column equality [==]: null when either side is null. *)
Definition eq_col (x y : option string) : option bool :=
  Spark.lift2 String.eqb x y.

(** The [needsHarmonisation] column of [harmonize_effect]:
    [when(c1, False).when(c2, True).otherwise(False)]. *)
Definition needsHarmonisation
           (referenceAllele alternateAllele riskAllele : option string) : bool :=
  if Spark.holds
       (eq_col referenceAllele (_get_reverse_complement alternateAllele))
  then false
  else if Spark.holds
            (Spark.or3
               (eq_col riskAllele referenceAllele)
               (eq_col riskAllele (_get_reverse_complement referenceAllele)))
  then true
  else false.

(** *** The reverse complement, as the specification names it

    The definitions below follow the words of the specification, not the
    code: they are what [_get_reverse_complement] is compared with. *)

(** The complementary base: A pairs with T, C pairs with G. *)
Definition complement_base (c : ascii) : ascii :=
  match c with
  | "A"%char => "T"%char
  | "T"%char => "A"%char
  | "C"%char => "G"%char
  | "G"%char => "C"%char
  | other => other
  end.

(** The reverse complement of a sequence: the complementary bases, read
    from the last base to the first. *)
Definition spec_reverse_complement (allele : string) : string :=
  string_of_list_ascii
    (map complement_base (rev (list_ascii_of_string allele))).

Definition spec_reverse_complement_col (allele_col : option string)
  : option string :=
  option_map spec_reverse_complement allele_col.

Fixpoint all_ACTG (s : string) : bool :=
  match s with
  | EmptyString => true
  | String c rest => (is_ACTG c && all_ACTG rest)%bool
  end.

(** A DNA sequence: one base or more, each of A, C, G, T. *)
Definition is_dna (s : string) : bool :=
  match s with
  | EmptyString => false
  | String _ _ => all_ACTG s
  end.

(** An allele column that is null or holds a DNA sequence. *)
Definition null_or_dna (allele_col : option string) : Prop :=
  match allele_col with
  | Some a => is_dna a = true
  | None => True
  end.

(** Two columns hold the same, non-null, string. *)
Definition same (x y : option string) : Prop :=
  exists s, x = Some s /\ y = Some s.

(** *** P-values *)

Local Open Scope R_scope.

(** A floating-point value that is a number: finite, or an infinity. *)
Inductive fp : Type :=
| Fin (x : R)
| Inf (negative : bool).

(** Round to the nearest integer, ties to the even one. *)
Definition rne (x : R) : Z :=
  let f := (up x - 1)%Z in
  let d := x - IZR f in
  if Rlt_dec d (1 / 2) then f
  else if Rlt_dec (1 / 2) d then (f + 1)%Z
  else if Z.even f then f else (f + 1)%Z.

(** The binary exponent of [x] in single precision: that of the
    subnormal numbers below [2^-126]. *)
Definition exponent32 (x : R) : Z :=
  if Rlt_dec (Rabs x) (powerRZ 2 (-126)) then (-126)%Z
  else (up (ln (Rabs x) / ln 2) - 1)%Z.

(** The largest finite single-precision number. *)
Definition float32_max : R := (2 - powerRZ 2 (-23)) * powerRZ 2 127.

(** [.cast(t.FloatType())] of the number a string denotes: the nearest
    single-precision number (24 significant bits, ties to even), an
    infinity past the largest finite one. *)
Definition cast_FloatType (x : R) : fp :=
  let ulp := powerRZ 2 (exponent32 x - 23) in
  let y := IZR (rne (x / ulp)) * ulp in
  if Rlt_dec float32_max (Rabs y) then Inf (if Rlt_dec y 0 then true else false)
  else Fin y.

(** [sys.float_info.min], the smallest normal double. *)
Definition float_info_min : R := powerRZ 2 (-1022).

(** [f.when(pvalue_float == 0, sys.float_info.min).otherwise(pvalue_float)]. *)
Definition pvalue_nozero (pvalue_float : option fp) : option fp :=
  match pvalue_float with
  | Some (Fin x) => if Req_dec_T x 0 then Some (Fin float_info_min) else Some (Fin x)
  | other => other
  end.

(** Python truth of a float: false for zero only. *)
Definition truthy (pv : fp) : bool :=
  match pv with
  | Fin x => if Req_dec_T x 0 then false else true
  | Inf _ => true
  end.

Definition halve (pv : fp) : fp :=
  match pv with
  | Fin x => Fin (x / 2)
  | Inf s => Inf s
  end.

(** The value of the UDF, [float(abs(norm.ppf(q)))] stored as a
    [FloatType]: SciPy's quantile function is external, so the call is
    recorded with its argument. *)
Inductive zscore : Type :=
| AbsNormPpf (q : fp).

(** [_pval_to_zscore]; the argument is the number the string column
    denotes, [None] for null or a string that is no number. *)
Definition _pval_to_zscore (pval_col : option R) : option zscore :=
  let pvalue_float := option_map cast_FloatType pval_col in
  match pvalue_nozero pvalue_float with
  | Some pv => if truthy pv then Some (AbsNormPpf (halve pv)) else None
  | None => None
  end.

(** The z-score under a given quantile function. *)
Definition zscore_value (norm_ppf : R -> R) (z : zscore) : option R :=
  match z with
  | AbsNormPpf (Fin q) => Some (Rabs (norm_ppf q))
  | AbsNormPpf (Inf _) => None
  end.

(** The cap: what a p-value of zero is turned into. *)
Definition capped_zscore : zscore := AbsNormPpf (Fin (float_info_min / 2)).

(** *** Effect sizes *)

(** [column.contains(literal)] on a non-null string: the literal occurs
    somewhere in the string. *)
Fixpoint contains (s sub : string) : bool :=
  if String.prefix sub s then true
  else match s with
       | EmptyString => false
       | String _ rest => contains rest sub
       end.

Definition col_contains (x : option string) (sub : string) : option bool :=
  option_map (fun s => contains s sub) x.

(** [_harmonize_beta]. *)
Definition _harmonize_beta (effect_size : option R)
           (confidence_interval : option string)
           (needs_harmonization : option bool) : option R :=
  let increase := col_contains confidence_interval "increase" in
  let decrease := col_contains confidence_interval "decrease" in
  let beta :=
    if Spark.holds (Spark.or3 increase decrease) then effect_size else None in
  if Spark.holds
       (Spark.or3 (Spark.and3 increase needs_harmonization)
                  (Spark.and3 decrease (Spark.not3 needs_harmonization)))
  then Spark.mul beta (Some (-1))
  else beta.

(** [_harmonize_odds_ratio]. *)
Definition _harmonize_odds_ratio (effect_size : option R)
           (confidence_interval : option string)
           (needs_harmonization : option bool) : option R :=
  let increase := col_contains confidence_interval "increase" in
  let decrease := col_contains confidence_interval "decrease" in
  let odds_ratio :=
    if Spark.holds (Spark.and3 (Spark.not3 increase) (Spark.not3 decrease))
    then effect_size else None in
  if Spark.holds needs_harmonization
  then Spark.div (Some 1) odds_ratio
  else odds_ratio.

(** [f.abs] and [f.exp] on a nullable column. *)
Definition col_abs (x : option R) : option R := option_map Rabs x.
Definition col_exp (x : option R) : option R := option_map exp x.

Definition zscore_95 : option R := Some (196 / 100).

(** [_calculate_beta_ci]. *)
Definition _calculate_beta_ci (beta zscore : option R)
           (direction : option string) : option R :=
  if Spark.holds (eq_col direction (Some "upper"))
  then Spark.add beta (Spark.div (col_abs (Spark.mul zscore_95 beta)) zscore)
  else if Spark.holds (eq_col direction (Some "lower"))
  then Spark.sub beta (Spark.div (col_abs (Spark.mul zscore_95 beta)) zscore)
  else None.

(** [_calculate_or_ci]. *)
Definition _calculate_or_ci (odds_ratio zscore : option R)
           (direction : option string) : option R :=
  let odds_ratio_estimate := Spark.log odds_ratio in
  let odds_ratio_se := Spark.div odds_ratio_estimate zscore in
  if Spark.holds (eq_col direction (Some "upper"))
  then col_exp (Spark.add odds_ratio_estimate
                          (col_abs (Spark.mul zscore_95 odds_ratio_se)))
  else if Spark.holds (eq_col direction (Some "lower"))
  then col_exp (Spark.sub odds_ratio_estimate
                          (col_abs (Spark.mul zscore_95 odds_ratio_se)))
  else None.

End Harmonise.

(* ================================================================== *)
(** ** GWAS Catalog study index: discovery samples *)
(* ================================================================== *)

Module StudyIndex.

Local Open Scope string_scope.
Local Open Scope Z_scope.

(** A discovery sample: [{ancestry, sampleSize}], both present. *)
Definition Sample : Type := (string * Z)%type.

Definition sample_dec (x y : Sample) : {x = y} + {x <> y}.
Proof. decide equality; [apply Z.eq_dec | apply string_dec]. Defined.

(** Java's [\s]. *)
Definition is_space (c : ascii) : bool :=
  let n := nat_of_ascii c in
  (Nat.eqb n 32 || Nat.eqb n 9 || Nat.eqb n 10 || Nat.eqb n 11
   || Nat.eqb n 12 || Nat.eqb n 13)%bool.

(** The text matches [[^()]*\)]: its first parenthesis is a closing one. *)
Fixpoint closes_paren (s : string) : bool :=
  match s with
  | EmptyString => false
  | String c rest =>
      if Ascii.eqb c ")" then true
      else if Ascii.eqb c "(" then false
      else closes_paren rest
  end.

(** [f.split(ancestry, r",\s(?![^()]*\))")]: cut at every comma followed
    by a white space, unless what follows runs into a closing
    parenthesis; [cur] is the piece being read. *)
Fixpoint split_from (s cur : string) : list string :=
  match s with
  | EmptyString => [cur]
  | String c rest =>
      match rest with
      | String w rest' =>
          if (Ascii.eqb c "," && is_space w && negb (closes_paren rest'))%bool
          then cur :: split_from rest' EmptyString
          else split_from rest (cur ++ String c EmptyString)
      | EmptyString => split_from rest (cur ++ String c EmptyString)
      end
  end.

Definition split_ancestries (ancestry : string) : list string :=
  split_from ancestry EmptyString.

(** [f.array_distinct]: the first occurrence of every element. *)
Fixpoint array_distinct {A : Type} (dec : forall x y : A, {x = y} + {x <> y})
         (l : list A) : list A :=
  match l with
  | [] => []
  | x :: rest =>
      x :: filter (fun y => if dec x y then false else true)
             (array_distinct dec rest)
  end.

(** [f.array_union]: the elements of both arrays, without duplicates. *)
Definition array_union {A : Type} (dec : forall x y : A, {x = y} + {x <> y})
           (x y : list A) : list A :=
  array_distinct dec (x ++ y).

(** [.cast(t.IntegerType())] of a fractional number already truncated
    toward zero: values outside the 32-bit range saturate. *)
Definition saturate_int (z : Z) : Z :=
  Z.max (- 2 ^ 31) (Z.min (2 ^ 31 - 1) z).

(** [(pop.pop_count / pop.pop_size).cast(t.IntegerType())]: the quotient
    is fractional, the cast drops the fraction. *)
Definition resolve_count (pop_count pop_size : Z) : Z :=
  saturate_int (Z.quot pop_count pop_size).

Definition exploded_ancestries (discovery_samples : list Sample)
  : list (list string) :=
  map (fun sample => split_ancestries (fst sample)) discovery_samples.

Definition unique_ancestries (discovery_samples : list Sample) : list Sample :=
  map (fun ancestry => (ancestry, 0))
      (array_distinct string_dec
         (fold_left (array_union string_dec)
                    (exploded_ancestries discovery_samples) [])).

Definition resolved_sample_count (discovery_samples : list Sample) : list Z :=
  map (fun pop : Z * Z => resolve_count (snd pop) (fst pop))
      (combine
         (map (fun pop => Z.of_nat (List.length pop))
              (exploded_ancestries discovery_samples))
         (map (fun pop : Sample => snd pop) discovery_samples)).

(** [_merge_ancestries_and_counts]. *)
Definition _merge_ancestries_and_counts (ancestry_group : list string * Z)
  : list Sample :=
  let count := snd ancestry_group in
  map (fun ancestry => (ancestry, count)) (fst ancestry_group).

Definition parsed_sample_size (discovery_samples : list Sample) : list Sample :=
  fold_left (array_union sample_dec)
            (map _merge_ancestries_and_counts
                 (combine (exploded_ancestries discovery_samples)
                          (resolved_sample_count discovery_samples)))
            [].

(** [_normalize_ancestries]. *)
Definition _normalize_ancestries (merged : list Sample) (ancestry : Sample)
  : list Sample :=
  map (fun a : Sample =>
         if String.eqb (fst a) (fst ancestry)
         then (fst a, snd a + snd ancestry)
         else a)
      merged.

(** [_parse_discovery_samples]. *)
Definition _parse_discovery_samples (discovery_samples : list Sample)
  : list Sample :=
  fold_left _normalize_ancestries
            (parsed_sample_size discovery_samples)
            (unique_ancestries discovery_samples).

(** The character occurs in the string. *)
Fixpoint occurs (c : ascii) (s : string) : bool :=
  match s with
  | EmptyString => false
  | String x rest => (Ascii.eqb x c || occurs c rest)%bool
  end.

(** Every white space of the string is a plain space. *)
Fixpoint plain_blanks (s : string) : bool :=
  match s with
  | EmptyString => true
  | String x rest => ((negb (is_space x) || Ascii.eqb x " ") && plain_blanks rest)%bool
  end.

(** The counts of the entries that name the ancestry, added up. *)
Fixpoint count_for (ancestry : string) (entries : list Sample) : Z :=
  match entries with
  | [] => 0
  | e :: rest =>
      (if String.eqb ancestry (fst e) then snd e else 0) + count_for ancestry rest
  end.

(** The entries one discovery sample is split into. *)
Definition sample_entries (sample : Sample) : list Sample :=
  let pieces := split_ancestries (fst sample) in
  map (fun ancestry =>
         (ancestry, resolve_count (snd sample) (Z.of_nat (List.length pieces))))
      pieces.

End StudyIndex.

(* ================================================================== *)
(** ** RAISS summary-statistics imputation *)
(* ================================================================== *)

Module Raiss.

Local Open Scope R_scope.

Definition vector : Type := list R.
Definition matrix : Type := list (list R).

(** *** The store of NumPy arrays

    Arrays are objects: a name holds a reference, an in-place update is
    seen through every reference to the array. *)

Inductive ndarray : Type :=
| Vec (v : vector)
| Mat (m : matrix).

Definition ref : Type := nat.
Definition Heap : Type := list ndarray.

Definition read_mat (h : Heap) (a : ref) : matrix :=
  match nth_error h a with
  | Some (Mat m) => m
  | _ => []
  end.

Definition read_vec (h : Heap) (a : ref) : vector :=
  match nth_error h a with
  | Some (Vec v) => v
  | _ => []
  end.

Fixpoint write (h : Heap) (a : ref) (x : ndarray) : Heap :=
  match h, a with
  | [], _ => []
  | _ :: rest, O => x :: rest
  | y :: rest, S a' => y :: write rest a' x
  end.

(** A fresh array. *)
Definition alloc (h : Heap) (x : ndarray) : Heap * ref :=
  (h ++ [x], List.length h).

(** The exceptions of the module: [LinAlgError] is what the
    pseudo-inversion raises, [NameError] what the evaluation of a name
    bound nowhere raises. *)
Inductive exn : Type :=
| LinAlgError
| NameError.

Inductive result (A : Type) : Type :=
| Return (a : A)
| Raise (e : exn).
Arguments Return {A} a.
Arguments Raise {A} e.

(** *** Linear algebra *)

Definition dotp (u v : vector) : R :=
  fold_right Rplus 0 (map (fun p : R * R => fst p * snd p) (combine u v)).

(** [np.dot(M, v)]. *)
Definition dot_mv (M : matrix) (v : vector) : vector :=
  map (fun row => dotp row v) M.

Definition column (j : nat) (M : matrix) : vector :=
  map (fun row => nth j row 0) M.

Definition ncols (M : matrix) : nat := List.length (hd [] M).

(** [np.dot(A, B)]. *)
Definition dot_mm (A B : matrix) : matrix :=
  map (fun row => map (fun j => dotp row (column j B)) (seq 0 (ncols B))) A.

Fixpoint set_nth (i : nat) (val : R) (row : vector) : vector :=
  match row, i with
  | [], _ => []
  | _ :: rest, O => val :: rest
  | x :: rest, S i' => x :: set_nth i' val rest
  end.

Fixpoint fill_diagonal_from (i : nat) (m : matrix) (val : R) : matrix :=
  match m with
  | [] => []
  | row :: rest => set_nth i val row :: fill_diagonal_from (S i) rest val
  end.

(** The contents of a matrix after [np.fill_diagonal(m, val)]. *)
Definition fill_diagonal (m : matrix) (val : R) : matrix :=
  fill_diagonal_from 0 m val.

(** [np.fill_diagonal(a, val)]: in place. *)
Definition np_fill_diagonal (a : ref) (val : R) (h : Heap) : Heap :=
  write h a (Mat (fill_diagonal (read_mat h a) val)).

(** Entry [(i, j)] of a matrix. *)
Definition entry (m : matrix) (i j : nat) : R := nth j (nth i m []) 0.

(** [np.allclose(a, b)] with its default tolerances. *)
Definition isclose (a b : R) : bool :=
  if Rle_dec (Rabs (a - b)) (1 / 100000000 + 1 / 100000 * Rabs b)
  then true else false.

Definition allclose (a b : matrix) : bool :=
  forallb (fun rows : vector * vector =>
             forallb (fun p : R * R => isclose (fst p) (snd p))
                     (combine (fst rows) (snd rows)))
          (combine a b).

Section Model.

(** [scipy.linalg.pinv(m, rtol=rtol, atol=0)]: the pseudo-inverse, or
    [None] when it raises [LinAlgError]. *)
Variable pinv : matrix -> R -> option matrix.

(** [_compute_mu]. *)
Definition _compute_mu (sig_i_t sig_t_inv : matrix) (zt : vector) : vector :=
  dot_mv sig_i_t (dot_mv sig_t_inv zt).

(** [np.einsum("ij,jk,ki->i", a, b, a.transpose())]. *)
Definition einsum_ij_jk_ki (a b : matrix) : vector :=
  map (fun row => dotp row (dot_mv b row)) a.

(** [_compute_var]: two fresh arrays. *)
Definition _compute_var (sig_i_t sig_t_inv : matrix) (lamb : R)
  : vector * vector :=
  let var := map (fun q => (1 + lamb) - q) (einsum_ij_jk_ki sig_i_t sig_t_inv) in
  let ld_score :=
    map (fun row => fold_right Rplus 0 (map (fun x => x ^ 2) row)) sig_i_t in
  (var, ld_score).

(** [_check_inversion]. *)
Definition _check_inversion (sig_t sig_t_inv : matrix) : bool :=
  allclose sig_t (dot_mm sig_t (dot_mm sig_t_inv sig_t)).

(** [_var_in_boundaries]: both assignments are made in the array that
    was passed, and that same array is returned. *)
Definition _var_in_boundaries (var : ref) (lamb : R) (h : Heap) : Heap * ref :=
  let h1 :=
    write h var
          (Vec (map (fun v => if Rlt_dec v 0 then 0 else v) (read_vec h var))) in
  let h2 :=
    write h1 var
          (Vec (map (fun v => if Rlt_dec (99999 / 100000 + lamb) v then 1 else v)
                    (read_vec h1 var))) in
  (h2, var).

(** [_invert_sig_t].  The diagonal of the caller's matrix is overwritten
    in place, then the pseudo-inverse is taken and returned.  When the
    pseudo-inversion raises [LinAlgError], the handler evaluates
    [sumstat_imputation._invert_sig_t]: the module binds the names
    [annotations], [Any], [np], [scipy] and [SummaryStatisticsImputation]
    only, and no builtin is called [sumstat_imputation], so the evaluation
    of the name raises [NameError] before any argument is evaluated and
    before any second call is made. *)
Definition _invert_sig_t (sig_t : ref) (lamb rtol : R) (h : Heap)
  : Heap * result matrix :=
  let h1 := np_fill_diagonal sig_t (1 + lamb) h in
  match pinv (read_mat h1 sig_t) rtol with
  | Some sig_t_inv => (h1, Return sig_t_inv)
  | None => (h1, Raise NameError)
  end.

(** The six arrays of the dictionary [raiss_model] is written to
    return. *)
Record Imputation : Type := mkImputation {
  var : ref;
  mu : vector;
  ld_score : vector;
  condition_number : vector;
  correct_inversion : list bool;
  imputation_R2 : vector
}.

(** The dictionary: [{"mu": None}] or the six arrays. *)
Inductive Dict : Type :=
| MuNone
| Full (d : Imputation).

(** [raiss_model].  Its first statement evaluates
    [sumstat_imputation._invert_sig_t(sig_t, lamb, rtol)]; the name
    [sumstat_imputation] is bound nowhere (see [_invert_sig_t]), so the call
    ends with [NameError] before [_invert_sig_t] is entered: nothing is
    written and no dictionary is built. *)
Definition raiss_model (zt : vector) (sig_t : ref) (sig_i_t : matrix)
           (lamb rtol : R) (h : Heap)
  : Heap * result Dict :=
  (h, Raise NameError).

End Model.

(** No linkage disequilibrium between the unobserved and the observed
    variants: every entry of the matrix is zero. *)
Definition zero_matrix (m : matrix) : Prop :=
  Forall (Forall (fun x => x = 0)) m.

(** The contents [_var_in_boundaries] leaves in the array [var]. *)
Definition in_boundaries (lamb : R) (var : vector) : vector :=
  map (fun v => if Rlt_dec (99999 / 100000 + lamb) v then 1 else v)
      (map (fun v => if Rlt_dec v 0 then 0 else v) var).

(** The defaults of the signature. *)
Definition default_lamb : R := 1 / 100.
Definition default_rtol : R := 1 / 100.

(** A pseudo-inverse for matrices of one entry, used in examples. *)
Definition pinv_1x1 (m : matrix) (rtol : R) : option matrix :=
  match m with
  | [[a]] => Some [[if Req_dec_T a 0 then 0 else / a]]
  | _ => None
  end.

(** A pseudo-inverse routine that raises [LinAlgError] until the
    tolerance has grown to [threshold]. *)
Definition pinv_failing_below (threshold : R) (m : matrix) (rtol : R)
  : option matrix :=
  if Rlt_dec rtol threshold then None else pinv_1x1 m rtol.

(** A store holding one array: the observed LD matrix of a single
    variant, [[1]]; the reference 0 names it. *)
Definition one_variant_store : Heap := [Mat [[1]]].

(** A store holding one array of three variances, one negative and one
above the upper boundary; the reference 0 names it. *)
Definition three_variances_store : Heap := [Vec [- (1 / 2); 3 / 10; 2]].

End Raiss.

(* ================================================================== *)
(** ** Study index: LD populations of the discovery samples *)
(* ================================================================== *)

Module StudyIndexDataset.

Local Open Scope R_scope.

(** A population with a sample size that has become a double; the label
    is null when the ancestry has no LD population. *)
Definition Population : Type := (option string * R)%type.

Definition population_dec (x y : Population) : {x = y} + {x <> y}.
Proof.
  decide equality; [apply Req_dec_T |].
  decide equality. apply string_dec.
Defined.

Section Panel.

(** The map of [gwas_population_2_LD_panel_map.json]: the LD population
    of an ancestry label, [None] for a label the map does not hold. *)
Variable ld_panel_map : string -> option string.

(** [_map_ancestries_to_ld_population]. *)
Definition _map_ancestries_to_ld_population (gwas_ancestry_label : StudyIndex.Sample)
  : option string * Z :=
  (ld_panel_map (fst gwas_ancestry_label), snd gwas_ancestry_label).

(** [_aggregate_samples_by_ancestry]: a null label is equal to nothing. *)
Definition _aggregate_samples_by_ancestry (merged : list Population)
           (ancestry : option string * Z) : list Population :=
  map (fun a : Population =>
         if Spark.holds (Harmonise.eq_col (fst a) (fst ancestry))
         then (fst a, snd a + IZR (snd ancestry))
         else a)
      merged.

Definition mapped_ancestries (discovery_samples : list StudyIndex.Sample)
  : list (option string * Z) :=
  map _map_ancestries_to_ld_population discovery_samples.

Definition aggregated_counts (discovery_samples : list StudyIndex.Sample)
  : list Population :=
  fold_left _aggregate_samples_by_ancestry
            (mapped_ancestries discovery_samples)
            (StudyIndex.array_distinct
               population_dec
               (map (fun x : option string * Z => (fst x, 0))
                    (mapped_ancestries discovery_samples))).

Definition total_sample_count (discovery_samples : list StudyIndex.Sample) : R :=
  fold_left (fun total (pop : Population) => total + snd pop)
            (aggregated_counts discovery_samples) 0.

(** [aggregate_and_map_ancestries]: the LD populations with their
    relative sample size. *)
Definition aggregate_and_map_ancestries (discovery_samples : list StudyIndex.Sample)
  : list (option string * option R) :=
  map (fun ld_population : Population =>
         (fst ld_population,
          Spark.div (Some (snd ld_population))
                    (Some (total_sample_count discovery_samples))))
      (aggregated_counts discovery_samples).

End Panel.

(** The sample counts of the mapped samples that carry the label, added
    up; a null label is equal to nothing. *)
Fixpoint label_total (label : option string) (mapped : list (option string * Z))
  : R :=
  match mapped with
  | [] => 0
  | x :: rest =>
      (if Spark.holds (Harmonise.eq_col label (fst x)) then IZR (snd x) else 0)
      + label_total label rest
  end.

(** The sample counts of the mapped samples whose label is not null,
    added up. *)
Fixpoint mapped_total (mapped : list (option string * Z)) : R :=
  match mapped with
  | [] => 0
  | x :: rest =>
      match fst x with
      | Some _ => IZR (snd x)
      | None => 0
      end
      + mapped_total rest
  end.

(** A map of two labels, for examples. *)
Definition two_label_map (label : string) : option string :=
  if String.eqb label "European" then Some "nfe"%string
  else if String.eqb label "African" then Some "afr"%string
  else None.

End StudyIndexDataset.

(* ================================================================== *)
(** * Properties *)
(* ================================================================== *)

(** ** Grouping and aggregation *)

Section SparkFacts.

Context {K A : Type} (dec : forall x y : K, {x = y} + {x <> y}) (key : A -> K).

Lemma groupBy_In (df : list A) (k : K) (rows : list A) :
  In (k, rows) (Spark.groupBy dec key df) <->
  In k (map key df) /\
  rows = filter (fun r => if dec (key r) k then true else false) df.
Proof.
  unfold Spark.groupBy. rewrite in_map_iff. split.
  - intros (k' & Heq & Hin). inversion Heq; subst.
    split; [now apply nodup_In in Hin | reflexivity].
  - intros (Hin & ->). exists k. split; [reflexivity | now apply nodup_In].
Qed.

Lemma groupBy_keys (df : list A) :
  map fst (Spark.groupBy dec key df) = nodup dec (map key df).
Proof.
  unfold Spark.groupBy. rewrite map_map. simpl. apply map_id.
Qed.

Lemma filter_key_nonempty (df : list A) (k : K) :
  In k (map key df) <->
  filter (fun r => if dec (key r) k then true else false) df <> [].
Proof.
  split.
  - rewrite in_map_iff. intros (r & Hk & Hin) Hnil.
    assert (Hf : In r (filter (fun r => if dec (key r) k then true else false) df)).
    { apply filter_In. split; [assumption |]. destruct (dec (key r) k); congruence. }
    rewrite Hnil in Hf. inversion Hf.
  - intros Hne.
    destruct (filter (fun r => if dec (key r) k then true else false) df)
      as [| r rest] eqn:E; [congruence |].
    assert (Hf : In r (filter (fun r => if dec (key r) k then true else false) df))
      by (rewrite E; now left).
    apply filter_In in Hf. destruct Hf as (Hin & Hk).
    destruct (dec (key r) k) as [<- |]; [| discriminate].
    now apply in_map.
Qed.

End SparkFacts.

Lemma sum_from_value (col : list (option R)) (a : R) :
  fold_left Spark.sum_step col (Some a) = Some (a + Spark.total (Spark.present col)).
Proof.
  revert a. induction col as [| x col IH]; intros a; simpl.
  - f_equal. lra.
  - destruct x as [v |]; simpl.
    + rewrite IH. f_equal. lra.
    + apply IH.
Qed.

Lemma sum_skips_nulls (col : list (option R)) :
  Spark.sum col =
  match Spark.present col with
  | [] => None
  | _ :: _ => Some (Spark.total (Spark.present col))
  end.
Proof.
  unfold Spark.sum. induction col as [| x col IH]; simpl; [reflexivity |].
  destruct x as [v |]; simpl.
  - rewrite sum_from_value. reflexivity.
  - exact IH.
Qed.

Lemma present_all_some (l : list R) : Spark.present (map Some l) = l.
Proof. induction l; simpl; congruence. Qed.

(** ** eCAVIAR *)

Lemma ecaviar_present_nil (rows : list OverlapRow) :
  Spark.present (map ECaviar.row_clpp rows) = [] <-> Forall ECaviar.null_side rows.
Proof.
  induction rows as [| row rows IH]; simpl.
  - split; [constructor | reflexivity].
  - unfold ECaviar.row_clpp at 1, ECaviar._get_clpp, Spark.mul, Spark.lift2.
    destruct (left_posteriorProbability row) as [a |] eqn:El;
      destruct (right_posteriorProbability row) as [b |] eqn:Er.
    + split; [discriminate |].
      intros H. inversion H as [| ? ? [Hn | Hn] _]; subst; congruence.
    + rewrite IH. split; intros H.
      * constructor; [right; assumption | assumption].
      * now inversion H.
    + rewrite IH. split; intros H.
      * constructor; [left; assumption | assumption].
      * now inversion H.
    + rewrite IH. split; intros H.
      * constructor; [left; assumption | assumption].
      * now inversion H.
Qed.

Lemma ecaviar_present_total (rows : list OverlapRow) :
  Spark.total (Spark.present (map ECaviar.row_clpp rows)) =
  Spark.total (map ECaviar.contribution rows).
Proof.
  induction rows as [| row rows IH]; simpl; [reflexivity |].
  unfold ECaviar.row_clpp at 1, ECaviar._get_clpp, Spark.mul, Spark.lift2,
    ECaviar.contribution at 1.
  destruct (left_posteriorProbability row), (right_posteriorProbability row);
    simpl; rewrite IH; lra.
Qed.

Lemma ecaviar_out_inv (df : list OverlapRow) (out : ECaviar.Colocalisation) :
  In out (ECaviar.colocalise df) <->
  ECaviar.pair_rows df (ECaviar.res_left out) (ECaviar.res_right out) <> [] /\
  out = {| ECaviar.res_left := ECaviar.res_left out;
           ECaviar.res_right := ECaviar.res_right out;
           ECaviar.coloc_n_vars :=
             Spark.count_star
               (ECaviar.pair_rows df (ECaviar.res_left out) (ECaviar.res_right out));
           ECaviar.clpp :=
             Spark.sum
               (map ECaviar.row_clpp
                    (ECaviar.pair_rows df (ECaviar.res_left out)
                                       (ECaviar.res_right out)));
           ECaviar.colocalisationMethod := "eCAVIAR" |}.
Proof.
  unfold ECaviar.colocalise. rewrite in_map_iff. split.
  - intros ([[l r] rows] & <- & Hin). simpl.
    apply groupBy_In in Hin. destruct Hin as (Hk & ->).
    split; [| reflexivity].
    now apply (filter_key_nonempty ECaviar.pair_key_dec ECaviar.pair_key).
  - intros (Hne & Hout).
    exists ((ECaviar.res_left out, ECaviar.res_right out),
            ECaviar.pair_rows df (ECaviar.res_left out) (ECaviar.res_right out)).
    split; [simpl; now rewrite <- Hout |].
    apply groupBy_In. split; [| reflexivity].
    now apply (filter_key_nonempty ECaviar.pair_key_dec ECaviar.pair_key).
Qed.

(** C5.  For every pair of overlapping study loci whose shared tag
    variants carry the posterior probabilities [left_pp] and [right_pp],
    [ECaviar.colocalise] returns one row for the pair; its [clpp] is the sum
    over the shared variants of the product of the left and the right
    posterior probability, and its method is "eCAVIAR". *)
Theorem ecaviar_clpp_sum_of_products
        (df : list OverlapRow) (l r : Z) (left_pp right_pp : list R) :
  ECaviar.pair_rows df l r <> [] ->
  map left_posteriorProbability (ECaviar.pair_rows df l r) = map Some left_pp ->
  map right_posteriorProbability (ECaviar.pair_rows df l r) = map Some right_pp ->
  exists out,
    In out (ECaviar.colocalise df) /\
    ECaviar.res_left out = l /\ ECaviar.res_right out = r /\
    ECaviar.colocalisationMethod out = "eCAVIAR"%string /\
    ECaviar.clpp out = Some (ECaviar.sum_of_products left_pp right_pp) /\
    forall out',
      In out' (ECaviar.colocalise df) ->
      ECaviar.res_left out' = l -> ECaviar.res_right out' = r -> out' = out.
Proof.
  intros Hne Hl Hr.
  set (rows := ECaviar.pair_rows df l r) in *.
  assert (Hcol : map ECaviar.row_clpp rows =
                 map Some (map (fun p : R * R => fst p * snd p)
                               (combine left_pp right_pp))).
  { clear Hne. revert left_pp right_pp Hl Hr.
    induction rows as [| row rows IH]; intros [| a lp] [| b rp] Hl Hr;
      simpl in *; try discriminate; try reflexivity.
    inversion Hl as [[Ha Hl']]. inversion Hr as [[Hb Hr']].
    rewrite (IH lp rp Hl' Hr').
    unfold ECaviar.row_clpp, ECaviar._get_clpp. rewrite Ha, Hb. reflexivity. }
  exists {| ECaviar.res_left := l; ECaviar.res_right := r;
            ECaviar.coloc_n_vars := Spark.count_star rows;
            ECaviar.clpp := Spark.sum (map ECaviar.row_clpp rows);
            ECaviar.colocalisationMethod := "eCAVIAR" |}.
  repeat split.
  - apply ecaviar_out_inv. simpl. split; [exact Hne | reflexivity].
  - simpl. rewrite Hcol, sum_skips_nulls, present_all_some.
    destruct (map (fun p : R * R => fst p * snd p) (combine left_pp right_pp))
      as [| x xs] eqn:E;
      [| unfold ECaviar.sum_of_products; now rewrite E].
    exfalso. apply Hne.
    destruct rows as [| row rows']; [reflexivity |].
    simpl in Hcol. discriminate.
  - intros out' Hin <- <-. apply ecaviar_out_inv in Hin.
    destruct Hin as (_ & Hout). exact Hout.
Qed.

(** C5, the end-to-end scenario: three shared variants with the posterior
    probabilities 0.5, 0.4 and 0.1 on both sides give a CLPP of 0.42. *)
Lemma ecaviar_three_shared_variants :
  exists out,
    In out (ECaviar.colocalise ECaviar.three_shared_variants) /\
    ECaviar.colocalisationMethod out = "eCAVIAR"%string /\
    ECaviar.clpp out = Some (42 / 100).
Proof.
  destruct (ecaviar_clpp_sum_of_products
              ECaviar.three_shared_variants 1 2
              [5 / 10; 4 / 10; 1 / 10] [5 / 10; 4 / 10; 1 / 10])
    as (out & Hin & _ & _ & Hm & Hc & _).
  - simpl. discriminate.
  - reflexivity.
  - reflexivity.
  - exists out. split; [exact Hin |]. split; [exact Hm |].
    rewrite Hc. f_equal. unfold ECaviar.sum_of_products. simpl. lra.
Defined.

(** C10.  In [ECaviar.colocalise], a row of a pair in which the left or the
    right posterior probability is null adds nothing to [clpp], yet it is
    counted in [coloc_n_vars]; [clpp] is null exactly when every row of the
    pair has a null side. *)
Theorem ecaviar_null_rows
        (df : list OverlapRow) (out : ECaviar.Colocalisation) :
  In out (ECaviar.colocalise df) ->
  let rows := ECaviar.pair_rows df (ECaviar.res_left out) (ECaviar.res_right out) in
  ECaviar.coloc_n_vars out = Z.of_nat (List.length rows) /\
  (ECaviar.clpp out = None <-> Forall ECaviar.null_side rows) /\
  (forall s, ECaviar.clpp out = Some s ->
             s = Spark.total (map ECaviar.contribution rows)) /\
  (forall row, In row rows -> ECaviar.null_side row -> ECaviar.contribution row = 0).
Proof.
  intros Hin rows. apply ecaviar_out_inv in Hin. destruct Hin as (_ & Hout).
  fold rows in Hout.
  assert (Hc : ECaviar.clpp out = Spark.sum (map ECaviar.row_clpp rows))
    by (rewrite Hout at 1; reflexivity).
  assert (Hn : ECaviar.coloc_n_vars out = Spark.count_star rows)
    by (rewrite Hout at 1; reflexivity).
  split; [exact Hn |]. rewrite Hc, sum_skips_nulls. repeat split.
  - intros H. apply ecaviar_present_nil.
    destruct (Spark.present (map ECaviar.row_clpp rows)); [reflexivity | discriminate].
  - intros H. apply ecaviar_present_nil in H. now rewrite H.
  - intros s. rewrite <- ecaviar_present_total.
    destruct (Spark.present (map ECaviar.row_clpp rows)); [discriminate |].
    now intros [= <-].
  - intros row _ [H | H]; unfold ECaviar.contribution; rewrite H;
      [reflexivity | now destruct (left_posteriorProbability row)].
Qed.

(** C10 on a pair of two rows, the second with a null right side: both
    rows are counted and [clpp] is the product of the first row alone. *)
Lemma ecaviar_null_rows_example :
  exists out,
    In out (ECaviar.colocalise ECaviar.one_null_side) /\
    ECaviar.coloc_n_vars out = 2%Z /\
    ECaviar.clpp out = Some (1 / 4).
Proof.
  set (out := {| ECaviar.res_left := 1; ECaviar.res_right := 2;
                 ECaviar.coloc_n_vars := 2;
                 ECaviar.clpp := Some (1 / 2 * (1 / 2));
                 ECaviar.colocalisationMethod := "eCAVIAR" |}).
  assert (Hin : In out (ECaviar.colocalise ECaviar.one_null_side))
    by (left; reflexivity).
  destruct (ecaviar_null_rows ECaviar.one_null_side out Hin) as (Hn & _ & Hs & _).
  exists out. split; [exact Hin |]. split; [exact Hn |].
  pose proof (Hs _ eq_refl) as E. change (Some (1 / 2 * (1 / 2)) = Some (1 / 4)).
  f_equal. etransitivity; [exact E |].
  simpl. unfold ECaviar.contribution. simpl. lra.
Defined.

(** ** COLOC *)

Lemma fold_left_Rplus (v : list R) (a : R) :
  fold_left Rplus v a = a + Spark.total v.
Proof.
  revert a. induction v as [| x v IH]; intros a; simpl; [lra |].
  rewrite IH. lra.
Qed.

Lemma np_sum_total (v : list R) : Coloc.np_sum v = Spark.total v.
Proof. unfold Coloc.np_sum. rewrite fold_left_Rplus. lra. Qed.

Lemma total_exp_pos {A : Type} (v : list A) (f : A -> R) :
  v <> [] -> 0 < Spark.total (map (fun x => exp (f x)) v).
Proof.
  destruct v as [| x v]; [congruence |]. intros _. simpl.
  assert (H : 0 <= Spark.total (map (fun x => exp (f x)) v)).
  { induction v as [| y v IH]; simpl; [lra |].
    pose proof (exp_pos (f y)). lra. }
  pose proof (exp_pos (f x)). lra.
Qed.

Lemma total_scale (v : list R) (f : R -> R) (c : R) :
  Spark.total (map (fun x => f x * c) v) = Spark.total (map f v) * c.
Proof. induction v as [| x v IH]; simpl; [lra |]. rewrite IH. lra. Qed.

(** The posteriors are a softmax: they add up to one. *)
Lemma posteriors_total (all_abfs : list R) :
  all_abfs <> [] -> Spark.total (Coloc._get_posteriors all_abfs) = 1.
Proof.
  intros Hne. unfold Coloc._get_posteriors, Coloc._get_logsum.
  set (m := Coloc.np_max all_abfs).
  rewrite np_sum_total.
  set (S := Spark.total (map (fun x => exp (x - m)) all_abfs)).
  assert (HS : 0 < S) by (apply (total_exp_pos all_abfs (fun x => x - m) Hne)).
  rewrite (map_ext (fun x => exp (x - (m + ln S)))
                   (fun x => exp (x - m) * / S)).
  - rewrite (total_scale all_abfs (fun x => exp (x - m)) (/ S)).
    fold S. field. lra.
  - intros x. replace (x - (m + ln S)) with ((x - m) + - ln S) by lra.
    rewrite exp_plus, exp_Ropp, exp_ln by assumption. reflexivity.
Qed.

(** The log-sum of a single value is that value. *)
Lemma logsum_single (x : R) : Coloc._get_logsum [x] = x.
Proof.
  unfold Coloc._get_logsum, Coloc.np_max, Coloc.np_sum. simpl.
  replace (x - x) with 0 by lra. rewrite exp_0.
  replace (0 + 1) with 1 by lra. rewrite ln_1. lra.
Qed.

(** What an emitted row is made of. *)
Lemma colocalise_group_emitted
      (priorc1 priorc2 priorc12 : R) (key : string * Z * Z)
      (rows : list OverlapRow) (out : Coloc.Colocalisation) :
  Coloc.colocalise_group priorc1 priorc2 priorc12 key rows = Coloc.Emitted out ->
  (Coloc.res_chromosome out, Coloc.res_left out, Coloc.res_right out) = key /\
  (Coloc._get_logsum (map (fun row => Coloc.filled (left_logABF row)) rows)
   + Coloc._get_logsum (map (fun row => Coloc.filled (right_logABF row)) rows)
   <> Coloc._get_logsum
        (map (fun row => Coloc.filled (left_logABF row)
                         + Coloc.filled (right_logABF row)) rows)) /\
  exists all_abfs,
    List.length all_abfs = 5%nat /\
    ([Coloc.coloc_h0 out; Coloc.coloc_h1 out; Coloc.coloc_h2 out;
      Coloc.coloc_h3 out; Coloc.coloc_h4 out] = Coloc._get_posteriors all_abfs).
Proof.
  unfold Coloc.colocalise_group.
  destruct (Req_dec_T _ _) as [| Hneq]; [discriminate |].
  destruct (Spark.add (Spark.log (Some priorc1)) _) as [l1 |]; [| discriminate].
  destruct (Spark.add (Spark.log (Some priorc2)) _) as [l2 |]; [| discriminate].
  destruct (Spark.add (Spark.add _ _) _) as [l3 |]; [| discriminate].
  destruct (Spark.add (Spark.log (Some priorc12)) _) as [l4 |]; [| discriminate].
  intros [= <-]. simpl. split; [| split; [exact Hneq |]].
  - now destruct key as [[c l] r].
  - exists [0; l1; l2; l3; l4]. split; reflexivity.
Qed.

Lemma emitted_In (l : list (string * Z * Z * Coloc.Outcome))
      (out : Coloc.Colocalisation) :
  In out (Coloc.emitted l) <-> exists key, In (key, Coloc.Emitted out) l.
Proof.
  induction l as [| [key o] l IH]; simpl.
  - split; [contradiction | intros (? & [])].
  - destruct o as [| | row]; simpl; rewrite ?IH; split.
    + intros (k & H). exists k. now right.
    + intros (k & [H | H]); [discriminate | now exists k].
    + intros (k & H). exists k. now right.
    + intros (k & [H | H]); [discriminate | now exists k].
    + intros [-> | (k & H)]; [exists key; now left | exists k; now right].
    + intros (k & [H | H]); [left; congruence | right; now exists k].
Qed.

Lemma colocalise_In (df : list OverlapRow) (priorc1 priorc2 priorc12 : R)
      (out : Coloc.Colocalisation) :
  In out (Coloc.colocalise df priorc1 priorc2 priorc12) <->
  exists key,
    Coloc.group_rows df key <> [] /\
    Coloc.colocalise_group priorc1 priorc2 priorc12 key (Coloc.group_rows df key)
    = Coloc.Emitted out.
Proof.
  unfold Coloc.colocalise, Coloc.colocalise_outcomes.
  rewrite emitted_In. split.
  - intros (key & Hin). apply in_map_iff in Hin.
    destruct Hin as ([k rows] & Heq & Hin). simpl in Heq.
    injection Heq as -> Hg.
    apply groupBy_In in Hin. destruct Hin as (Hk & ->).
    exists key. split; [| exact Hg].
    now apply (filter_key_nonempty Coloc.group_key_dec Coloc.group_key).
  - intros (key & Hne & Hg). exists key. apply in_map_iff.
    exists (key, Coloc.group_rows df key). split; [simpl; now rewrite Hg |].
    apply groupBy_In. split; [| reflexivity].
    now apply (filter_key_nonempty Coloc.group_key_dec Coloc.group_key).
Qed.

(** The log-sum is the logarithm of the sum of the exponentials: taking
    the maximum out does not change the value. *)
Lemma logsum_ln_total (v : list R) :
  v <> [] -> Coloc._get_logsum v = ln (Spark.total (map exp v)).
Proof.
  intros Hne. unfold Coloc._get_logsum.
  set (m := Coloc.np_max v). rewrite np_sum_total.
  pose proof (total_exp_pos v (fun x => x - m) Hne) as HS.
  rewrite <- (ln_exp m) at 1. rewrite <- ln_mult by (try apply exp_pos; exact HS).
  f_equal. rewrite Rmult_comm, <- total_scale. f_equal.
  apply map_ext. intros x. rewrite <- exp_plus. f_equal. lra.
Qed.

Lemma total_products_le (ps : list (R * R)) :
  Spark.total (map (fun p => exp (fst p + snd p)) ps)
  <= Spark.total (map exp (map fst ps)) * Spark.total (map exp (map snd ps)).
Proof.
  induction ps as [| [a b] ps IH]; simpl; [lra |].
  rewrite exp_plus.
  pose proof (exp_pos a) as Ha. pose proof (exp_pos b) as Hb.
  assert (HA : 0 <= Spark.total (map exp (map fst ps))).
  { destruct ps; [simpl; lra |].
    left. rewrite map_map. apply (total_exp_pos _ (fun p => fst p)). discriminate. }
  assert (HB : 0 <= Spark.total (map exp (map snd ps))).
  { destruct ps; [simpl; lra |].
    left. rewrite map_map. apply (total_exp_pos _ (fun p => snd p)). discriminate. }
  nra.
Qed.

Lemma total_products_lt (ps : list (R * R)) :
  (2 <= List.length ps)%nat ->
  Spark.total (map (fun p => exp (fst p + snd p)) ps)
  < Spark.total (map exp (map fst ps)) * Spark.total (map exp (map snd ps)).
Proof.
  destruct ps as [| [a b] [| q ps]]; simpl List.length; try lia. intros _.
  pose proof (total_products_le (q :: ps)) as Hle.
  assert (HA : 0 < Spark.total (map exp (map fst (q :: ps)))).
  { rewrite map_map. apply (total_exp_pos _ (fun p => fst p)). discriminate. }
  assert (HB : 0 < Spark.total (map exp (map snd (q :: ps)))).
  { rewrite map_map. apply (total_exp_pos _ (fun p => snd p)). discriminate. }
  remember (q :: ps) as rest.
  simpl. rewrite exp_plus.
  pose proof (exp_pos a) as Ha. pose proof (exp_pos b) as Hb.
  nra.
Qed.

(** With two shared variants or more, [logsum12 < logsum1 + logsum2]. *)
Lemma logsum_gap (ps : list (R * R)) :
  (2 <= List.length ps)%nat ->
  Coloc._get_logsum (map (fun p => fst p + snd p) ps)
  < Coloc._get_logsum (map fst ps) + Coloc._get_logsum (map snd ps).
Proof.
  intros Hlen.
  assert (Hne : ps <> []) by (destruct ps; [simpl in Hlen; lia | discriminate]).
  rewrite !logsum_ln_total
    by (destruct ps; [congruence | discriminate]).
  assert (HA : 0 < Spark.total (map exp (map fst ps))).
  { rewrite map_map. apply (total_exp_pos _ (fun p => fst p)). exact Hne. }
  assert (HB : 0 < Spark.total (map exp (map snd ps))).
  { rewrite map_map. apply (total_exp_pos _ (fun p => snd p)). exact Hne. }
  rewrite <- ln_mult by assumption.
  apply ln_increasing.
  - rewrite map_map. apply (total_exp_pos _ (fun p => fst p + snd p)). exact Hne.
  - rewrite map_map. apply total_products_lt. exact Hlen.
Qed.

(** A group of two shared variants or more is emitted under positive
    priors. *)
Lemma colocalise_group_emits
      (priorc1 priorc2 priorc12 : R) (key : string * Z * Z)
      (rows : list OverlapRow) :
  0 < priorc1 -> 0 < priorc2 -> 0 < priorc12 ->
  (2 <= List.length rows)%nat ->
  exists out,
    Coloc.colocalise_group priorc1 priorc2 priorc12 key rows = Coloc.Emitted out.
Proof.
  intros H1 H2 H12 Hlen.
  pose proof (logsum_gap
                (map (fun row => (Coloc.filled (left_logABF row),
                                  Coloc.filled (right_logABF row))) rows)) as Hgap.
  rewrite !map_map, length_map in Hgap. simpl in Hgap. specialize (Hgap Hlen).
  unfold Coloc.colocalise_group.
  set (L1 := Coloc._get_logsum (map (fun row => Coloc.filled (left_logABF row)) rows)) in *.
  set (L2 := Coloc._get_logsum (map (fun row => Coloc.filled (right_logABF row)) rows)) in *.
  set (L12 := Coloc._get_logsum
                (map (fun row => Coloc.filled (left_logABF row)
                                 + Coloc.filled (right_logABF row)) rows)) in *.
  destruct (Req_dec_T (L1 + L2) L12) as [Heq | _]; [lra |].
  unfold Spark.log, Spark.add, Spark.lift2.
  destruct (Rlt_dec 0 priorc1); [| contradiction].
  destruct (Rlt_dec 0 priorc2); [| contradiction].
  destruct (Rlt_dec 0 priorc12); [| contradiction].
  rewrite Rmax_left by lra.
  destruct (Rlt_dec 0 (exp (L1 + L2 - (L1 + L2)) - exp (L12 - (L1 + L2))))
    as [_ | Hn].
  - eexists. reflexivity.
  - exfalso. apply Hn.
    replace (L1 + L2 - (L1 + L2)) with 0 by lra. rewrite exp_0.
    assert (exp (L12 - (L1 + L2)) < exp 0) by (apply exp_increasing; lra).
    rewrite exp_0 in H. lra.
Qed.

(** A group of exactly one shared variant is dropped by the filter,
    whatever the priors. *)
Lemma colocalise_group_single
      (priorc1 priorc2 priorc12 : R) (key : string * Z * Z) (row : OverlapRow) :
  Coloc.colocalise_group priorc1 priorc2 priorc12 key [row] = Coloc.Filtered.
Proof.
  unfold Coloc.colocalise_group. simpl map. rewrite !logsum_single.
  destruct (Req_dec_T _ _) as [_ | Hn]; [reflexivity | exfalso; apply Hn; reflexivity].
Qed.

(** C1.  For every row that [Coloc.colocalise] emits, whatever the priors,
    the five posterior probabilities add up to one: they are the softmax of
    the five log-evidences.  In the exact arithmetic of the model the sum is
    one, so it is within 1e-9 of one. *)
Theorem coloc_posteriors_sum_to_one
        (df : list OverlapRow) (priorc1 priorc2 priorc12 : R)
        (out : Coloc.Colocalisation) :
  In out (Coloc.colocalise df priorc1 priorc2 priorc12) ->
  Coloc.coloc_h0 out + Coloc.coloc_h1 out + Coloc.coloc_h2 out
  + Coloc.coloc_h3 out + Coloc.coloc_h4 out = 1 /\
  Rabs (Coloc.coloc_h0 out + Coloc.coloc_h1 out + Coloc.coloc_h2 out
        + Coloc.coloc_h3 out + Coloc.coloc_h4 out - 1) < 1 / 10 ^ 9.
Proof.
  intros Hin. apply colocalise_In in Hin. destruct Hin as (key & _ & Hg).
  apply colocalise_group_emitted in Hg.
  destruct Hg as (_ & _ & all_abfs & Hlen & Hpost).
  assert (Hsum : Coloc.coloc_h0 out + Coloc.coloc_h1 out + Coloc.coloc_h2 out
                 + Coloc.coloc_h3 out + Coloc.coloc_h4 out = 1).
  { rewrite <- (posteriors_total all_abfs)
      by (destruct all_abfs; [discriminate | discriminate]).
    rewrite <- Hpost. simpl. lra. }
  split; [exact Hsum |].
  rewrite Hsum. replace (1 - 1) with 0 by lra. rewrite Rabs_R0.
  apply Rdiv_lt_0_compat; [lra | apply pow_lt; lra].
Qed.

(** C1 on an overlap of two shared variants under the default priors: a
    row is emitted and its posteriors add up to one. *)
Lemma coloc_posteriors_sum_to_one_example :
  exists out,
    In out (Coloc.colocalise Coloc.two_shared_variants Coloc.default_priorc1
                             Coloc.default_priorc2 Coloc.default_priorc12) /\
    Coloc.coloc_h0 out + Coloc.coloc_h1 out + Coloc.coloc_h2 out
    + Coloc.coloc_h3 out + Coloc.coloc_h4 out = 1.
Proof.
  destruct (colocalise_group_emits
              Coloc.default_priorc1 Coloc.default_priorc2 Coloc.default_priorc12
              ("1"%string, 1%Z, 2%Z) Coloc.two_shared_variants)
    as (out & Hout).
  - unfold Coloc.default_priorc1. lra.
  - unfold Coloc.default_priorc2. lra.
  - unfold Coloc.default_priorc12. lra.
  - simpl. lia.
  - assert (Hin : In out (Coloc.colocalise Coloc.two_shared_variants
                            Coloc.default_priorc1 Coloc.default_priorc2
                            Coloc.default_priorc12)).
    { apply colocalise_In. exists ("1"%string, 1%Z, 2%Z).
      split; [discriminate | exact Hout]. }
    exists out. split; [exact Hin |].
    exact (proj1 (coloc_posteriors_sum_to_one _ _ _ _ out Hin)).
Defined.

(** C2, as stated, fails: for the overlap of one shared tag variant with
    log-ABF 10.3 and 10.5 no row is returned, so none has [h4] within 1e-5
    of 0.9993 and the other posteriors below 1e-3. *)
Lemma coloc_single_snp_no_row :
  ~ exists out,
      In out (Coloc.colocalise Coloc.single_snp_overlap Coloc.default_priorc1
                               Coloc.default_priorc2 Coloc.default_priorc12) /\
      Rabs (Coloc.coloc_h4 out - 9993 / 10000) < 1 / 100000 /\
      Coloc.coloc_h0 out < 1 / 1000 /\ Coloc.coloc_h1 out < 1 / 1000 /\
      Coloc.coloc_h2 out < 1 / 1000 /\ Coloc.coloc_h3 out < 1 / 1000.
Proof.
  intros (out & Hin & _). apply colocalise_In in Hin.
  destruct Hin as (key & Hne & Hg).
  cbv [Coloc.group_rows Coloc.single_snp_overlap filter] in Hne, Hg.
  destruct (Coloc.group_key_dec _ key) as [_ | _]; [| congruence].
  rewrite colocalise_group_single in Hg. discriminate.
Qed.

(** C2, amended.  A pair with exactly one shared tag variant has
    [logsum1 + logsum2 = logsum12]; the filter of [Coloc.colocalise] drops
    it, and the returned table has no row for the pair, whatever the
    priors. *)
Theorem coloc_single_variant_pair_dropped
        (df : list OverlapRow) (priorc1 priorc2 priorc12 : R)
        (key : string * Z * Z) (row : OverlapRow) :
  Coloc.group_rows df key = [row] ->
  forall out,
    In out (Coloc.colocalise df priorc1 priorc2 priorc12) ->
    (Coloc.res_chromosome out, Coloc.res_left out, Coloc.res_right out) <> key.
Proof.
  intros Hone out Hin Hkey. apply colocalise_In in Hin.
  destruct Hin as (key' & _ & Hg).
  pose proof (colocalise_group_emitted _ _ _ _ _ _ Hg) as (Hk & _).
  assert (Heq : key' = key) by congruence. rewrite Heq in Hg.
  rewrite Hone, colocalise_group_single in Hg. discriminate.
Qed.

(** C2, amended, on the overlap of the single-variant test: the table
    returned under the default priors is empty. *)
Lemma coloc_single_variant_pair_dropped_example :
  Coloc.colocalise Coloc.single_snp_overlap Coloc.default_priorc1
                   Coloc.default_priorc2 Coloc.default_priorc12 = [].
Proof.
  destruct (Coloc.colocalise Coloc.single_snp_overlap Coloc.default_priorc1
                             Coloc.default_priorc2 Coloc.default_priorc12)
    as [| out rest] eqn:E; [reflexivity |].
  exfalso.
  assert (Hin : In out (Coloc.colocalise Coloc.single_snp_overlap
                          Coloc.default_priorc1 Coloc.default_priorc2
                          Coloc.default_priorc12))
    by (rewrite E; now left).
  pose proof (proj1 (colocalise_In _ _ _ _ _) Hin) as (key & Hne & Hg).
  pose proof (colocalise_group_emitted _ _ _ _ _ _ Hg) as (Hk & _).
  refine (coloc_single_variant_pair_dropped
            Coloc.single_snp_overlap _ _ _ key
            Coloc.single_snp_row _ out Hin Hk).
  cbv [Coloc.group_rows Coloc.single_snp_overlap filter] in Hne |- *.
  destruct (Coloc.group_key_dec _ key); [reflexivity | congruence].
Defined.

(** ** Effect harmonisation *)

Lemma eq_col_holds (x y : option string) :
  Spark.holds (Harmonise.eq_col x y) = true <-> Harmonise.same x y.
Proof.
  unfold Harmonise.eq_col, Spark.lift2, Harmonise.same.
  destruct x as [a |], y as [b |]; simpl.
  - destruct (String.eqb a b) eqn:E.
    + apply String.eqb_eq in E. subst. split; [intros _; now exists b | reflexivity].
    + apply String.eqb_neq in E.
      split; [discriminate | intros (s & [= ->] & [= ->]); congruence].
  - split; [discriminate | intros (s & _ & H); discriminate].
  - split; [discriminate | intros (s & H & _); discriminate].
  - split; [discriminate | intros (s & H & _); discriminate].
Qed.

Lemma or3_holds (x y : option bool) :
  Spark.holds (Spark.or3 x y) = true <->
  Spark.holds x = true \/ Spark.holds y = true.
Proof.
  destruct x as [[|] |], y as [[|] |]; simpl; intuition discriminate.
Qed.

Lemma string_of_list_ascii_app (l l' : list ascii) :
  string_of_list_ascii (l ++ l')
  = (string_of_list_ascii l ++ string_of_list_ascii l')%string.
Proof. induction l as [| c l IH]; simpl; [reflexivity | now rewrite IH]. Qed.

Lemma translate_char_complement (c : ascii) :
  Harmonise.translate_char c = Harmonise.complement_base c.
Proof.
  destruct c as [[|] [|] [|] [|] [|] [|] [|] [|]]; reflexivity.
Qed.

(** Translating and reversing is taking the complementary bases from the
    last to the first. *)
Lemma reverse_translate_spec (s : string) :
  Harmonise.reverse (Harmonise.translate s) = Harmonise.spec_reverse_complement s.
Proof.
  unfold Harmonise.spec_reverse_complement.
  induction s as [| c s IH]; [reflexivity |].
  cbn [Harmonise.translate Harmonise.reverse list_ascii_of_string rev].
  rewrite IH, map_app, string_of_list_ascii_app. cbn [map string_of_list_ascii].
  now rewrite translate_char_complement.
Qed.

Lemma is_dna_rlike (s : string) :
  Harmonise.is_dna s = true -> Harmonise.rlike_ACTG s = true.
Proof.
  destruct s as [| c s]; [discriminate |]. simpl.
  intros H. apply andb_true_iff in H. destruct H as (-> & _). reflexivity.
Qed.

(** On a null allele and on a DNA sequence, [_get_reverse_complement]
    is the reverse complement of the specification. *)
Lemma get_reverse_complement_spec (allele_col : option string) :
  Harmonise.null_or_dna allele_col ->
  Harmonise._get_reverse_complement allele_col
  = Harmonise.spec_reverse_complement_col allele_col.
Proof.
  destruct allele_col as [a |]; [| reflexivity]. intros Hdna.
  unfold Harmonise._get_reverse_complement, Harmonise.reverse_complement.
  rewrite (is_dna_rlike a Hdna), reverse_translate_spec. reflexivity.
Qed.

Lemma needs_harmonisation_chain
      (referenceAllele alternateAllele riskAllele : option string) :
  (Harmonise.same referenceAllele
                  (Harmonise._get_reverse_complement alternateAllele) ->
   Harmonise.needsHarmonisation referenceAllele alternateAllele riskAllele
   = false) /\
  (~ Harmonise.same referenceAllele
                    (Harmonise._get_reverse_complement alternateAllele) ->
   (Harmonise.needsHarmonisation referenceAllele alternateAllele riskAllele
    = true <->
    Harmonise.same riskAllele referenceAllele \/
    Harmonise.same riskAllele
                   (Harmonise._get_reverse_complement referenceAllele))).
Proof.
  unfold Harmonise.needsHarmonisation. repeat split.
  - intros H. apply eq_col_holds in H. now rewrite H.
  - destruct (Spark.holds (Harmonise.eq_col referenceAllele _)) eqn:E1.
    + apply eq_col_holds in E1. contradiction.
    + destruct (Spark.holds (Spark.or3 _ _)) eqn:E2; [| discriminate].
      intros _. apply or3_holds in E2. rewrite !eq_col_holds in E2. exact E2.
  - destruct (Spark.holds (Harmonise.eq_col referenceAllele _)) eqn:E1.
    + apply eq_col_holds in E1. contradiction.
    + intros Hs. rewrite <- !eq_col_holds in Hs. apply or3_holds in Hs.
      now rewrite Hs.
Qed.

(** C6.  For a record whose reference and alternate alleles are null or
    DNA sequences, with the reverse complement of the specification (the
    complementary bases read backwards): [needsHarmonisation] is false
    when the reference allele equals the reverse complement of the
    alternate allele (a palindromic site); otherwise it is true exactly
    when the risk allele equals the reference allele or the reverse
    complement of the reference allele.  For every record the same rule
    holds with [_get_reverse_complement] as the reverse complement.  In
    particular ref = T, alt = A, risk = T gives false; so does the
    two-base palindromic site ref = AC, alt = GT, risk = AC; and
    ref = AC, alt = AG gives true for the risk alleles AC and GT and false
    for the risk allele AG. *)
Theorem needs_harmonisation_rule
        (referenceAllele alternateAllele riskAllele : option string) :
  (Harmonise.null_or_dna referenceAllele ->
   Harmonise.null_or_dna alternateAllele ->
   (Harmonise.same referenceAllele
                   (Harmonise.spec_reverse_complement_col alternateAllele) ->
    Harmonise.needsHarmonisation referenceAllele alternateAllele riskAllele
    = false) /\
   (~ Harmonise.same referenceAllele
                     (Harmonise.spec_reverse_complement_col alternateAllele) ->
    (Harmonise.needsHarmonisation referenceAllele alternateAllele riskAllele
     = true <->
     Harmonise.same riskAllele referenceAllele \/
     Harmonise.same riskAllele
                    (Harmonise.spec_reverse_complement_col referenceAllele)))) /\
  (Harmonise.same referenceAllele
                  (Harmonise._get_reverse_complement alternateAllele) ->
   Harmonise.needsHarmonisation referenceAllele alternateAllele riskAllele
   = false) /\
  (~ Harmonise.same referenceAllele
                    (Harmonise._get_reverse_complement alternateAllele) ->
   (Harmonise.needsHarmonisation referenceAllele alternateAllele riskAllele
    = true <->
    Harmonise.same riskAllele referenceAllele \/
    Harmonise.same riskAllele
                   (Harmonise._get_reverse_complement referenceAllele))) /\
  Harmonise.needsHarmonisation (Some "T"%string) (Some "A"%string)
                               (Some "T"%string) = false /\
  Harmonise.needsHarmonisation (Some "AC"%string) (Some "GT"%string)
                               (Some "AC"%string) = false /\
  Harmonise.needsHarmonisation (Some "AC"%string) (Some "AG"%string)
                               (Some "AC"%string) = true /\
  Harmonise.needsHarmonisation (Some "AC"%string) (Some "AG"%string)
                               (Some "GT"%string) = true /\
  Harmonise.needsHarmonisation (Some "AC"%string) (Some "AG"%string)
                               (Some "AG"%string) = false.
Proof.
  pose proof (needs_harmonisation_chain referenceAllele alternateAllele riskAllele)
    as (Hpal & Hrest).
  split; [| split; [exact Hpal | split; [exact Hrest |]]].
  - intros Href Halt.
    rewrite <- (get_reverse_complement_spec alternateAllele Halt).
    rewrite <- (get_reverse_complement_spec referenceAllele Href).
    split; assumption.
  - repeat split; reflexivity.
Qed.

(** C6 on a palindromic site of two bases: the reverse complement of GT
    is AC. *)
Lemma needs_harmonisation_rule_example :
  Harmonise.spec_reverse_complement "GT" = "AC"%string /\
  Harmonise.needsHarmonisation (Some "AC"%string) (Some "GT"%string)
                               (Some "AC"%string) = false.
Proof.
  split; [reflexivity |].
  refine (proj1 (proj1 (needs_harmonisation_rule
                          (Some "AC"%string) (Some "GT"%string)
                          (Some "AC"%string))
                       eq_refl eq_refl) _).
  exists "AC"%string. split; reflexivity.
Defined.

(** ** Discovery samples *)

Lemma filter_all {A : Type} (f : A -> bool) (l : list A) :
  (forall x, In x l -> f x = true) -> filter f l = l.
Proof.
  induction l as [| y l IH]; intros H; simpl; [reflexivity |].
  rewrite (H y) by now left. f_equal. apply IH. intros x Hx. apply H. now right.
Qed.

Lemma array_distinct_NoDup {A : Type} (dec : forall x y : A, {x = y} + {x <> y})
      (l : list A) :
  NoDup l -> StudyIndex.array_distinct dec l = l.
Proof.
  induction 1 as [| x l Hx Hl IH]; simpl; [reflexivity |].
  rewrite IH. f_equal. apply filter_all. intros y Hy.
  destruct (dec x y) as [-> |]; [contradiction | reflexivity].
Qed.

Lemma NoDup_with_count (pieces : list string) (q : Z) :
  NoDup pieces -> NoDup (map (fun a => (a, q)) pieces).
Proof.
  induction 1 as [| x l Hx Hl IH]; simpl; constructor; [| exact IH].
  rewrite in_map_iff. intros (y & [= ->] & Hy). contradiction.
Qed.

(** Folding [_normalize_ancestries] over entries that all carry the count
    [q]: an ancestry named by one of the entries gains [q], once. *)
Lemma normalize_distinct (pieces : list string) (q : Z) :
  NoDup pieces ->
  forall merged : list StudyIndex.Sample,
    fold_left StudyIndex._normalize_ancestries
              (map (fun a => (a, q)) pieces) merged
    = map (fun a : StudyIndex.Sample =>
             if in_dec string_dec (fst a) pieces
             then (fst a, (snd a + q)%Z) else a)
          merged.
Proof.
  induction 1 as [| x l Hx Hl IH]; intros merged; simpl.
  - symmetry. rewrite <- (map_id merged) at 2. apply map_ext. now intros [a c].
  - rewrite IH. unfold StudyIndex._normalize_ancestries. rewrite map_map.
    apply map_ext. intros [a c]. simpl.
    destruct (String.eqb a x) eqn:E.
    + apply String.eqb_eq in E. subst a. simpl.
      destruct (in_dec string_dec x l) as [Hin |]; [contradiction |].
      destruct (string_dec x x); [reflexivity | congruence].
    + apply String.eqb_neq in E. simpl.
      destruct (string_dec x a) as [-> |]; [congruence |].
      destruct (in_dec string_dec a l); reflexivity.
Qed.

Lemma saturate_in_range (z : Z) :
  (- 2 ^ 31 <= z <= 2 ^ 31 - 1)%Z -> StudyIndex.saturate_int z = z.
Proof. unfold StudyIndex.saturate_int. lia. Qed.

(** C9.  A discovery sample whose ancestry string splits into [n]
    ancestries and whose sample count is [S] becomes [n] entries, one per
    ancestry, each with the count [S] divided by [n] as an integer (the
    fraction is dropped); the quotient is within the range of an
    [IntegerType] and the ancestries of the string are distinct. *)
Theorem discovery_samples_split (ancestry : string) (S : Z) :
  let pieces := StudyIndex.split_ancestries ancestry in
  let n := Z.of_nat (List.length pieces) in
  NoDup pieces ->
  (- 2 ^ 31 <= Z.quot S n <= 2 ^ 31 - 1)%Z ->
  StudyIndex._parse_discovery_samples [(ancestry, S)]
  = map (fun a => (a, Z.quot S n)) pieces /\
  List.length (StudyIndex._parse_discovery_samples [(ancestry, S)])
  = List.length pieces.
Proof.
  intros pieces n Hnd Hrange.
  assert (Hmain : StudyIndex._parse_discovery_samples [(ancestry, S)]
                  = map (fun a => (a, Z.quot S n)) pieces).
  { unfold StudyIndex._parse_discovery_samples, StudyIndex.parsed_sample_size,
      StudyIndex.unique_ancestries, StudyIndex.resolved_sample_count,
      StudyIndex.exploded_ancestries.
    cbn [map combine fold_left fst snd].
    fold pieces. fold n.
    unfold StudyIndex.resolve_count. rewrite (saturate_in_range _ Hrange).
    unfold StudyIndex._merge_ancestries_and_counts. cbn [fst snd].
    unfold StudyIndex.array_union. cbn [app].
    rewrite (array_distinct_NoDup string_dec pieces Hnd).
    rewrite (array_distinct_NoDup string_dec pieces Hnd).
    rewrite (array_distinct_NoDup StudyIndex.sample_dec _
               (NoDup_with_count pieces (Z.quot S n) Hnd)).
    rewrite (normalize_distinct pieces (Z.quot S n) Hnd).
    rewrite map_map. apply map_ext_in. intros a Ha. cbn [fst snd].
    destruct (in_dec string_dec a pieces); [f_equal | contradiction]. }
  split; [exact Hmain |]. rewrite Hmain. apply length_map.
Qed.

(** C9 on three populations and 100 samples: 33 each. *)
Lemma discovery_samples_split_example :
  StudyIndex._parse_discovery_samples
    [("European, African, Asian"%string, 100%Z)]
  = [("European"%string, 33%Z); ("African"%string, 33%Z); ("Asian"%string, 33%Z)].
Proof.
  refine (eq_trans
            (proj1 (discovery_samples_split
                      "European, African, Asian"%string 100%Z _ _)) _).
  - repeat constructor; simpl; intuition discriminate.
  - vm_compute. split; discriminate.
  - reflexivity.
Defined.

(** ** P-values *)

Lemma pow2_nat (n : nat) : powerRZ 2 (Z.of_nat n) = IZR (2 ^ Z.of_nat n).
Proof. rewrite <- pow_powerRZ, pow_IZR. reflexivity. Qed.

Lemma pow2_neg (n : nat) : powerRZ 2 (- Z.of_nat n) = / IZR (2 ^ Z.of_nat n).
Proof. rewrite powerRZ_neg', pow2_nat. reflexivity. Qed.

Lemma inv_pow10 (n : nat) : 1 / 10 ^ n = / IZR (10 ^ Z.of_nat n).
Proof. unfold Rdiv. rewrite Rmult_1_l, pow_IZR. reflexivity. Qed.

Lemma inv_IZR_le (a b : Z) : (0 <? b)%Z = true -> (b <=? a)%Z = true ->
  / IZR a <= / IZR b.
Proof.
  intros Hb Hab. apply Z.ltb_lt in Hb. apply Z.leb_le in Hab.
  apply Rinv_le_contravar; [apply (IZR_lt 0); exact Hb | apply IZR_le; exact Hab].
Qed.

Lemma inv_IZR_lt (a b : Z) : (0 <? b)%Z = true -> (b <? a)%Z = true ->
  / IZR a < / IZR b.
Proof.
  intros Hb Hab. apply Z.ltb_lt in Hb. apply Z.ltb_lt in Hab.
  apply Rinv_lt_contravar; [| apply IZR_lt; exact Hab].
  apply Rmult_lt_0_compat; apply (IZR_lt 0); lia.
Qed.

Lemma floor_spec (y : R) : IZR (up y - 1) <= y < IZR (up y - 1) + 1.
Proof. destruct (archimed y). rewrite minus_IZR. lra. Qed.

Lemma rne_bounds (y : R) : y - 1 / 2 <= IZR (Harmonise.rne y) <= y + 1 / 2.
Proof.
  unfold Harmonise.rne. pose proof (floor_spec y) as Hf.
  destruct (Rlt_dec _ _); [lra |].
  destruct (Rlt_dec _ _); [rewrite plus_IZR; lra |].
  destruct (Z.even _); [lra | rewrite plus_IZR; lra].
Qed.

Lemma rne_zero (y : R) : 0 <= y <= 1 / 2 -> Harmonise.rne y = 0%Z.
Proof.
  intros Hy. unfold Harmonise.rne.
  assert (Hup : up y = 1%Z) by (symmetry; apply tech_up; simpl; lra).
  rewrite Hup. simpl.
  destruct (Rlt_dec _ _); [reflexivity |].
  destruct (Rlt_dec _ _); [lra | reflexivity].
Qed.

Lemma rne_pos (y : R) : 1 / 2 < y -> 0 < IZR (Harmonise.rne y).
Proof.
  intros Hy. pose proof (rne_bounds y) as Hb.
  assert (H : (0 < Harmonise.rne y)%Z) by (apply lt_IZR; lra).
  apply (IZR_lt 0). exact H.
Qed.

Lemma float_info_min_pos : 0 < Harmonise.float_info_min.
Proof. apply powerRZ_lt. lra. Qed.

(** A p-value of at most [2^-150] is cast to the single-precision zero. *)
Lemma cast_underflow (p : R) :
  0 <= p <= powerRZ 2 (-150) -> Harmonise.cast_FloatType p = Harmonise.Fin 0.
Proof.
  intros Hp.
  assert (H150 : powerRZ 2 (-150) = powerRZ 2 (-149) * / 2).
  { change (-150)%Z with (-149 + -1)%Z. rewrite powerRZ_add by lra.
    f_equal. simpl. lra. }
  assert (H126 : powerRZ 2 (-149) * / 2 < powerRZ 2 (-126)).
  { change (-126)%Z with (-149 + 23)%Z. rewrite powerRZ_add by lra.
    change 23%Z with (Z.of_nat 23). rewrite pow2_nat.
    pose proof (powerRZ_lt 2 (-149)) as Hpos.
    assert (1 <= IZR (2 ^ Z.of_nat 23)) by (apply IZR_le; vm_compute; discriminate).
    specialize (Hpos ltac:(lra)). nra. }
  pose proof (powerRZ_lt 2 (-149) ltac:(lra)) as Hulp.
  unfold Harmonise.cast_FloatType, Harmonise.exponent32.
  rewrite (Rabs_pos_eq p (proj1 Hp)).
  destruct (Rlt_dec p (powerRZ 2 (-126))) as [_ | Hn]; [| lra].
  change (-126 - 23)%Z with (-149)%Z.
  rewrite rne_zero.
  - rewrite Rmult_0_l, Rabs_R0.
    destruct (Rlt_dec Harmonise.float32_max 0) as [Hneg | _]; [| reflexivity].
    exfalso. unfold Harmonise.float32_max in Hneg.
    pose proof (powerRZ_lt 2 127 ltac:(lra)).
    assert (powerRZ 2 (-23) <= 1).
    { change (-23)%Z with (- Z.of_nat 23)%Z. rewrite pow2_neg.
      rewrite <- Rinv_1. apply inv_IZR_le; reflexivity. }
    nra.
  - split.
    + apply Rmult_le_pos; [lra | left; now apply Rinv_0_lt_compat].
    + apply (Rmult_le_reg_r (powerRZ 2 (-149))); [exact Hulp |].
      unfold Rdiv. rewrite Rmult_assoc, Rinv_l by lra. lra.
Qed.

(** Such a p-value gets the capped z-score. *)
Lemma zscore_capped (p : R) :
  0 <= p <= powerRZ 2 (-150) ->
  Harmonise._pval_to_zscore (Some p) = Some Harmonise.capped_zscore.
Proof.
  intros Hp. unfold Harmonise._pval_to_zscore. simpl.
  rewrite (cast_underflow p Hp). simpl.
  destruct (Req_dec_T 0 0) as [_ | Hn]; [| congruence].
  simpl. pose proof float_info_min_pos.
  destruct (Req_dec_T Harmonise.float_info_min 0); [lra | reflexivity].
Qed.

Lemma tiny_1e300 : 1 / 10 ^ 300 <= powerRZ 2 (-150).
Proof.
  rewrite inv_pow10. change (-150)%Z with (- Z.of_nat 150)%Z. rewrite pow2_neg.
  apply inv_IZR_le; vm_compute; reflexivity.
Qed.

Lemma tiny_1e100 : 1 / 10 ^ 100 <= powerRZ 2 (-150).
Proof.
  rewrite inv_pow10. change (-150)%Z with (- Z.of_nat 150)%Z. rewrite pow2_neg.
  apply inv_IZR_le; vm_compute; reflexivity.
Qed.

Lemma float_info_min_lt_1e100 : Harmonise.float_info_min < 1 / 10 ^ 100.
Proof.
  unfold Harmonise.float_info_min.
  rewrite inv_pow10. change (-1022)%Z with (- Z.of_nat 1022)%Z. rewrite pow2_neg.
  apply inv_IZR_lt; vm_compute; reflexivity.
Qed.

Lemma pow2_nonneg_ge_1 (z : Z) : (0 <= z)%Z -> 1 <= powerRZ 2 z.
Proof.
  intros Hz. rewrite <- (Z2Nat.id z Hz), <- pow_powerRZ.
  apply pow_R1_Rle. lra.
Qed.

Lemma pow2_nonpos_le_1 (z : Z) : (z <= 0)%Z -> powerRZ 2 z <= 1.
Proof.
  intros Hz. replace z with (- (- z))%Z by lia. rewrite powerRZ_neg'.
  pose proof (pow2_nonneg_ge_1 (- z) ltac:(lia)) as H.
  rewrite <- Rinv_1. apply Rinv_le_contravar; lra.
Qed.

Lemma exp_le (a b : R) : a <= b -> exp a <= exp b.
Proof.
  intros Hab. apply Rnot_lt_le. intros H. apply exp_lt_inv in H. lra.
Qed.

Lemma ln2_pos : 0 < ln 2.
Proof. rewrite <- ln_1. apply ln_increasing; lra. Qed.

(** In the normal range the binary exponent brackets the value from
    below, and a p-value has a non-positive exponent. *)
Lemma exponent32_normal (p : R) :
  powerRZ 2 (-126) <= p <= 1 ->
  powerRZ 2 (Harmonise.exponent32 p) <= p /\ (Harmonise.exponent32 p <= 0)%Z.
Proof.
  intros Hp. pose proof (powerRZ_lt 2 (-126) ltac:(lra)) as H126.
  unfold Harmonise.exponent32. rewrite (Rabs_pos_eq p) by lra.
  destruct (Rlt_dec p (powerRZ 2 (-126))) as [Hlt | _]; [lra |].
  pose proof (floor_spec (ln p / ln 2)) as (Hfl & _).
  pose proof ln2_pos as Hl2.
  assert (Hmul : IZR (up (ln p / ln 2) - 1) * ln 2 <= ln p).
  { apply (Rmult_le_compat_r (ln 2)) in Hfl; [| lra].
    unfold Rdiv in Hfl. rewrite Rmult_assoc, Rinv_l, Rmult_1_r in Hfl by lra.
    exact Hfl. }
  split.
  - rewrite powerRZ_Rpower by lra. unfold Rpower.
    rewrite <- (exp_ln p) at 2 by lra. apply exp_le. exact Hmul.
  - assert (Hlnp : ln p <= 0).
    { destruct (Rle_lt_or_eq_dec p 1 (proj2 Hp)) as [Hp1 | ->].
      - rewrite <- ln_1. left. apply ln_increasing; lra.
      - rewrite ln_1. lra. }
    apply le_IZR. change (IZR 0) with 0. nra.
Qed.

Lemma float32_max_ge_2 : 2 <= Harmonise.float32_max.
Proof.
  unfold Harmonise.float32_max.
  pose proof (pow2_nonpos_le_1 (-23) ltac:(lia)).
  assert (2 <= powerRZ 2 127).
  { change 127%Z with (Z.of_nat 127). rewrite pow2_nat.
    apply (IZR_le 2). vm_compute. discriminate. }
  nra.
Qed.

(** A p-value above [2^-150] is cast to a positive single-precision
    number, within half a unit in the last place. *)
Lemma cast_nonzero (p : R) :
  powerRZ 2 (-150) < p <= 1 ->
  exists q,
    Harmonise.cast_FloatType p = Harmonise.Fin q /\ 0 < q /\
    Rabs (q - p) <= powerRZ 2 (Harmonise.exponent32 p - 23) / 2.
Proof.
  intros Hp.
  pose proof (powerRZ_lt 2 (-150) ltac:(lra)) as H150.
  set (e := Harmonise.exponent32 p).
  set (ulp := powerRZ 2 (e - 23)).
  assert (Hulp : 0 < ulp) by (apply powerRZ_lt; lra).
  assert (Hhalf : ulp / 2 < p /\ ulp <= 1).
  { destruct (Rlt_dec p (powerRZ 2 (-126))) as [Hsub | Hnorm].
    - assert (He : e = (-126)%Z).
      { unfold e, Harmonise.exponent32. rewrite (Rabs_pos_eq p) by lra.
        destruct (Rlt_dec p (powerRZ 2 (-126))); [reflexivity | contradiction]. }
      unfold ulp. rewrite He. change (-126 - 23)%Z with (-149)%Z.
      split; [| apply pow2_nonpos_le_1; lia].
      assert (powerRZ 2 (-150) = powerRZ 2 (-149) * / 2).
      { change (-150)%Z with (-149 + -1)%Z. rewrite powerRZ_add by lra.
        f_equal. simpl. lra. }
      lra.
    - destruct (exponent32_normal p) as (Hlow & He0); [lra |]. fold e in Hlow, He0.
      assert (Hle : ulp <= powerRZ 2 e).
      { unfold ulp. replace (e - 23)%Z with (e + -23)%Z by lia.
        rewrite powerRZ_add by lra.
        pose proof (pow2_nonpos_le_1 (-23) ltac:(lia)).
        pose proof (powerRZ_lt 2 e ltac:(lra)). nra. }
      split; [lra |]. unfold ulp. apply pow2_nonpos_le_1. lia. }
  destruct Hhalf as (Hhalf & Hulp1).
  set (y := p / ulp).
  assert (Hy : y * ulp = p) by (unfold y; field; lra).
  assert (Hy12 : 1 / 2 < y).
  { apply (Rmult_lt_reg_r ulp); [exact Hulp |]. rewrite Hy. lra. }
  pose proof (rne_bounds y) as Hb. pose proof (rne_pos y Hy12) as Hpos.
  exists (IZR (Harmonise.rne y) * ulp).
  assert (Hq : p - ulp / 2 <= IZR (Harmonise.rne y) * ulp <= p + ulp / 2) by nra.
  repeat split.
  - unfold Harmonise.cast_FloatType. fold e. fold ulp. fold y.
    destruct (Rlt_dec Harmonise.float32_max _) as [Hover | _]; [| reflexivity].
    exfalso. pose proof float32_max_ge_2.
    rewrite Rabs_pos_eq in Hover by nra. lra.
  - nra.
  - apply Rabs_le. lra.
Qed.

(** C8, as stated, fails: the p-value 1e-100 is above 1e-300, yet it is
    turned into the capped z-score, not into the z-score of 1e-100 / 2. *)
Lemma pval_to_zscore_threshold_not_1e300 :
  ~ (forall p : R,
        0 <= p <= 1 ->
        (p <= 1 / 10 ^ 300 ->
         Harmonise._pval_to_zscore (Some p) = Some Harmonise.capped_zscore) /\
        (1 / 10 ^ 300 < p ->
         Harmonise._pval_to_zscore (Some p)
         = Some (Harmonise.AbsNormPpf (Harmonise.Fin (p / 2))))).
Proof.
  intros H.
  assert (Hpos : 0 < 1 / 10 ^ 100)
    by (apply Rdiv_lt_0_compat; [lra | apply pow_lt; lra]).
  assert (Hle1 : 1 / 10 ^ 100 <= 1).
  { rewrite inv_pow10, <- Rinv_1. apply inv_IZR_le; vm_compute; reflexivity. }
  assert (Hgt : 1 / 10 ^ 300 < 1 / 10 ^ 100).
  { rewrite !inv_pow10. apply inv_IZR_lt; vm_compute; reflexivity. }
  destruct (H (1 / 10 ^ 100) ltac:(lra)) as (_ & Hc).
  specialize (Hc Hgt).
  rewrite zscore_capped in Hc by (pose proof tiny_1e100; lra).
  unfold Harmonise.capped_zscore in Hc. injection Hc as Hc.
  pose proof float_info_min_lt_1e100. lra.
Qed.

(** C8, amended.  The p-value is first cast to single precision.  Every
    valid p-value of at most [2^-150] (about 7e-46: every p-value of at
    most 1e-300, and zero) is cast to zero, replaced by
    [sys.float_info.min], and yields the same capped z-score
    [|ppf(float_info.min / 2)|].  Every valid p-value above [2^-150] is cast
    to a positive single-precision number [q] within half a unit in the last
    place of it, and yields [|ppf(q / 2)|]. *)
Theorem pval_to_zscore_cap (p : R) :
  0 <= p <= 1 ->
  (p <= 1 / 10 ^ 300 ->
   Harmonise._pval_to_zscore (Some p) = Some Harmonise.capped_zscore) /\
  (p <= powerRZ 2 (-150) ->
   Harmonise._pval_to_zscore (Some p) = Some Harmonise.capped_zscore) /\
  (powerRZ 2 (-150) < p ->
   exists q,
     Harmonise.cast_FloatType p = Harmonise.Fin q /\ 0 < q /\
     Rabs (q - p) <= powerRZ 2 (Harmonise.exponent32 p - 23) / 2 /\
     Harmonise._pval_to_zscore (Some p)
     = Some (Harmonise.AbsNormPpf (Harmonise.Fin (q / 2)))).
Proof.
  intros Hp. repeat split.
  - intros H. apply zscore_capped. pose proof tiny_1e300. lra.
  - intros H. apply zscore_capped. lra.
  - intros H. destruct (cast_nonzero p) as (q & Hc & Hq & Herr); [lra |].
    exists q. repeat split; try assumption.
    unfold Harmonise._pval_to_zscore. simpl. rewrite Hc. simpl.
    destruct (Req_dec_T q 0); [lra |]. simpl.
    destruct (Req_dec_T q 0); [lra | reflexivity].
Qed.

(** C8, amended, at the p-value zero. *)
Lemma pval_to_zscore_cap_zero :
  Harmonise._pval_to_zscore (Some 0) = Some Harmonise.capped_zscore.
Proof.
  assert (H : 0 <= 0 <= 1) by lra.
  apply (proj1 (pval_to_zscore_cap 0 H)).
  left. apply Rdiv_lt_0_compat; [lra | apply pow_lt; lra].
Defined.

(** ** RAISS: the store *)

Lemma write_length (h : Raiss.Heap) (a : Raiss.ref) (x : Raiss.ndarray) :
  List.length (Raiss.write h a x) = List.length h.
Proof.
  revert a. induction h as [| y h IH]; intros [| a]; simpl; auto.
Qed.

Lemma read_write_same (h : Raiss.Heap) (a : Raiss.ref) (x : Raiss.ndarray) :
  (a < List.length h)%nat -> nth_error (Raiss.write h a x) a = Some x.
Proof.
  revert a. induction h as [| y h IH]; intros [| a] Ha; simpl in *; try lia.
  - reflexivity.
  - apply IH. lia.
Qed.

Lemma read_write_other (h : Raiss.Heap) (a b : Raiss.ref) (x : Raiss.ndarray) :
  a <> b -> nth_error (Raiss.write h a x) b = nth_error h b.
Proof.
  revert a b. induction h as [| y h IH]; intros [| a] [| b] Hab; simpl;
    try reflexivity; try congruence.
  apply IH. congruence.
Qed.

Lemma write_write (h : Raiss.Heap) (a : Raiss.ref) (x y : Raiss.ndarray) :
  Raiss.write (Raiss.write h a x) a y = Raiss.write h a y.
Proof.
  revert a. induction h as [| z h IH]; intros [| a]; simpl; try reflexivity.
  now rewrite IH.
Qed.

Lemma write_same (h : Raiss.Heap) (a : Raiss.ref) (x : Raiss.ndarray) :
  nth_error h a = Some x -> Raiss.write h a x = h.
Proof.
  revert a. induction h as [| z h IH]; intros [| a] Ha; simpl in *;
    try discriminate.
  - congruence.
  - now rewrite IH.
Qed.

Lemma nth_error_valid {A : Type} (l : list A) (n : nat) (x : A) :
  nth_error l n = Some x -> (n < List.length l)%nat.
Proof. intros H. apply nth_error_Some. congruence. Qed.

(** ** RAISS: the diagonal *)

Lemma set_nth_set_nth (i : nat) (a b : R) (row : Raiss.vector) :
  Raiss.set_nth i b (Raiss.set_nth i a row) = Raiss.set_nth i b row.
Proof.
  revert i. induction row as [| x row IH]; intros [| i]; simpl; try reflexivity.
  now rewrite IH.
Qed.

Lemma fill_diagonal_from_twice (i : nat) (m : Raiss.matrix) (a b : R) :
  Raiss.fill_diagonal_from i (Raiss.fill_diagonal_from i m a) b
  = Raiss.fill_diagonal_from i m b.
Proof.
  revert i. induction m as [| row m IH]; intros i; simpl; [reflexivity |].
  now rewrite set_nth_set_nth, IH.
Qed.

(** Filling the diagonal overwrites an earlier filling. *)
Lemma fill_diagonal_twice (m : Raiss.matrix) (a b : R) :
  Raiss.fill_diagonal (Raiss.fill_diagonal m a) b = Raiss.fill_diagonal m b.
Proof. apply fill_diagonal_from_twice. Qed.

Lemma nth_set_nth_other (i j : nat) (v : R) (row : Raiss.vector) :
  i <> j -> nth j (Raiss.set_nth i v row) 0 = nth j row 0.
Proof.
  revert i j. induction row as [| x row IH]; intros [| i] [| j] Hij; simpl;
    try reflexivity; try congruence.
  apply IH. congruence.
Qed.

Lemma entry_fill_diagonal_from (s : nat) (m : Raiss.matrix) (v : R) (i j : nat) :
  (s + i)%nat <> j ->
  Raiss.entry (Raiss.fill_diagonal_from s m v) i j = Raiss.entry m i j.
Proof.
  unfold Raiss.entry. revert s i.
  induction m as [| row m IH]; intros s [| i] Hij; simpl; try reflexivity.
  - apply nth_set_nth_other. lia.
  - apply IH. lia.
Qed.

(** Filling the diagonal leaves every entry off the diagonal as it was. *)
Lemma entry_fill_diagonal (m : Raiss.matrix) (v : R) (i j : nat) :
  i <> j -> Raiss.entry (Raiss.fill_diagonal m v) i j = Raiss.entry m i j.
Proof. intros Hij. apply entry_fill_diagonal_from. simpl. exact Hij. Qed.

(** ** RAISS: the inversion *)

Lemma read_mat_of (h : Raiss.Heap) (a : Raiss.ref) (m : Raiss.matrix) :
  nth_error h a = Some (Raiss.Mat m) -> Raiss.read_mat h a = m.
Proof. unfold Raiss.read_mat. now intros ->. Qed.

Lemma fill_diagonal_heap (h : Raiss.Heap) (a : Raiss.ref) (m : Raiss.matrix)
      (v : R) :
  nth_error h a = Some (Raiss.Mat m) ->
  Raiss.np_fill_diagonal a v h
  = Raiss.write h a (Raiss.Mat (Raiss.fill_diagonal m v)) /\
  nth_error (Raiss.np_fill_diagonal a v h) a
  = Some (Raiss.Mat (Raiss.fill_diagonal m v)).
Proof.
  intros Hm. unfold Raiss.np_fill_diagonal. rewrite (read_mat_of h a m Hm).
  split; [reflexivity |]. apply read_write_same. eapply nth_error_valid; eauto.
Qed.


(** ** RAISS: the model *)

Lemma read_vec_alloc (h : Raiss.Heap) (v : Raiss.vector) :
  Raiss.read_vec (h ++ [Raiss.Vec v]) (List.length h) = v.
Proof.
  unfold Raiss.read_vec. rewrite nth_error_app2 by lia.
  now rewrite Nat.sub_diag.
Qed.

Lemma read_vec_write (h : Raiss.Heap) (a : Raiss.ref) (v : Raiss.vector) :
  (a < List.length h)%nat -> Raiss.read_vec (Raiss.write h a (Raiss.Vec v)) a = v.
Proof. intros Ha. unfold Raiss.read_vec. now rewrite read_write_same. Qed.

Lemma var_in_boundaries_spec (var : Raiss.ref) (lamb : R) (h : Raiss.Heap) :
  (var < List.length h)%nat ->
  Raiss._var_in_boundaries var lamb h
  = (Raiss.write h var (Raiss.Vec (Raiss.in_boundaries lamb (Raiss.read_vec h var))),
     var).
Proof.
  intros Hv. unfold Raiss._var_in_boundaries, Raiss.in_boundaries.
  rewrite read_vec_write by exact Hv. rewrite write_write. reflexivity.
Qed.


(** ** RAISS without linkage disequilibrium *)

Lemma dotp_zero_l (u v : Raiss.vector) :
  Forall (fun x => x = 0) u -> Raiss.dotp u v = 0.
Proof.
  intros Hu. revert v. unfold Raiss.dotp.
  induction Hu as [| x u Hx Hu IH]; intros [| y v]; simpl; try reflexivity.
  rewrite IH, Hx. ring.
Qed.

Lemma map_const {A B : Type} (f : A -> B) (c : B) (l : list A) :
  Forall (fun x => f x = c) l -> map f l = repeat c (List.length l).
Proof. induction 1 as [| x l Hx Hl IH]; simpl; [reflexivity | now rewrite Hx, IH]. Qed.

Lemma compute_mu_zero (sig_i_t sig_t_inv : Raiss.matrix) (zt : Raiss.vector) :
  Raiss.zero_matrix sig_i_t ->
  Raiss._compute_mu sig_i_t sig_t_inv zt = repeat 0 (List.length sig_i_t).
Proof.
  intros Hz. unfold Raiss._compute_mu, Raiss.dot_mv. apply map_const.
  eapply Forall_impl; [| exact Hz]. intros row Hrow. now apply dotp_zero_l.
Qed.

Lemma compute_var_zero (sig_i_t sig_t_inv : Raiss.matrix) (lamb : R) :
  Raiss.zero_matrix sig_i_t ->
  fst (Raiss._compute_var sig_i_t sig_t_inv lamb)
  = repeat (1 + lamb) (List.length sig_i_t).
Proof.
  intros Hz. unfold Raiss._compute_var, Raiss.einsum_ij_jk_ki. cbn [fst].
  rewrite map_map. apply map_const.
  eapply Forall_impl; [| exact Hz]. intros row Hrow. cbn beta.
  rewrite dotp_zero_l by exact Hrow. ring.
Qed.

(** ** RAISS: the unbound name *)

(** One call of [_invert_sig_t]: the diagonal is overwritten in the
    caller's matrix, one pseudo-inversion is made, and its failure ends in
    [NameError]. *)
Lemma invert_sig_t_attempt
      (pinv : Raiss.matrix -> R -> option Raiss.matrix)
      (sig_t : Raiss.ref) (lamb rtol : R) (h : Raiss.Heap) (m : Raiss.matrix) :
  nth_error h sig_t = Some (Raiss.Mat m) ->
  Raiss._invert_sig_t pinv sig_t lamb rtol h
  = (Raiss.write h sig_t (Raiss.Mat (Raiss.fill_diagonal m (1 + lamb))),
     match pinv (Raiss.fill_diagonal m (1 + lamb)) rtol with
     | Some sig_t_inv => Raiss.Return sig_t_inv
     | None => Raiss.Raise Raiss.NameError
     end).
Proof.
  intros Hm. unfold Raiss._invert_sig_t.
  destruct (fill_diagonal_heap h sig_t m (1 + lamb) Hm) as (Hh & Hr).
  rewrite (read_mat_of _ _ _ Hr), Hh.
  destruct (pinv (Raiss.fill_diagonal m (1 + lamb)) rtol); reflexivity.
Qed.

(** C3.  On an input without LD between the unobserved and the observed
    variants, [raiss_model] returns no dictionary: the call ends with
    [NameError] and leaves the store as it was.  The functions it is
    written to call give, on that input, the values the claim names:
    [_compute_mu] gives 0 for every unobserved variant and [_compute_var]
    gives [1 + lamb] for every unobserved variant. *)
Theorem raiss_no_ld_name_error
        (zt : Raiss.vector) (sig_t : Raiss.ref) (sig_i_t sig_t_inv : Raiss.matrix)
        (lamb rtol : R) (h : Raiss.Heap) :
  Raiss.zero_matrix sig_i_t ->
  Raiss.raiss_model zt sig_t sig_i_t lamb rtol h
  = (h, Raiss.Raise Raiss.NameError) /\
  Raiss._compute_mu sig_i_t sig_t_inv zt = repeat 0 (List.length sig_i_t) /\
  fst (Raiss._compute_var sig_i_t sig_t_inv lamb)
  = repeat (1 + lamb) (List.length sig_i_t).
Proof.
  intros Hz. split; [reflexivity |]. split.
  - now apply compute_mu_zero.
  - now apply compute_var_zero.
Qed.

(** C3 on one observed variant of z-score 1 and one unobserved variant
    without LD, with the defaults of the signature. *)
Lemma raiss_no_ld_name_error_example :
  Raiss.raiss_model [1] 0%nat [[0]] Raiss.default_lamb Raiss.default_rtol
                    Raiss.one_variant_store
  = (Raiss.one_variant_store, Raiss.Raise Raiss.NameError) /\
  Raiss._compute_mu [[0]] [[100 / 101]] [1] = [0] /\
  fst (Raiss._compute_var [[0]] [[100 / 101]] Raiss.default_lamb)
  = [1 + Raiss.default_lamb].
Proof.
  apply (raiss_no_ld_name_error
           [1] 0%nat [[0]] [[100 / 101]] Raiss.default_lamb Raiss.default_rtol
           Raiss.one_variant_store).
  repeat constructor.
Defined.

(** C4.  When the pseudo-inversion raises [LinAlgError], [_invert_sig_t]
    makes no second attempt: the diagonal has been overwritten with
    [1 + lamb] and the call ends with [NameError], whatever the
    pseudo-inversion would give for larger [lamb] and [rtol]; and
    [raiss_model] ends with [NameError] too, it returns no
    [{"mu": None}]. *)
Theorem raiss_inversion_no_retry
        (pinv : Raiss.matrix -> R -> option Raiss.matrix)
        (zt : Raiss.vector) (sig_t : Raiss.ref) (sig_i_t : Raiss.matrix)
        (lamb rtol : R) (h : Raiss.Heap) (m : Raiss.matrix) :
  nth_error h sig_t = Some (Raiss.Mat m) ->
  pinv (Raiss.fill_diagonal m (1 + lamb)) rtol = None ->
  Raiss._invert_sig_t pinv sig_t lamb rtol h
  = (Raiss.write h sig_t (Raiss.Mat (Raiss.fill_diagonal m (1 + lamb))),
     Raiss.Raise Raiss.NameError) /\
  snd (Raiss.raiss_model zt sig_t sig_i_t lamb rtol h)
  = Raiss.Raise Raiss.NameError /\
  snd (Raiss.raiss_model zt sig_t sig_i_t lamb rtol h)
  <> Raiss.Return Raiss.MuNone.
Proof.
  intros Hm Hfail. split; [| split].
  - rewrite (invert_sig_t_attempt pinv sig_t lamb rtol h m Hm), Hfail.
    reflexivity.
  - reflexivity.
  - discriminate.
Qed.

(** C4 on the observed LD matrix [[1]] and a pseudo-inversion that raises
    for [rtol = 0.01] and succeeds for [rtol = 0.011], the tolerance of a
    first retry: no retry is made. *)
Lemma raiss_inversion_no_retry_example :
  Raiss.pinv_failing_below (11 / 1000) [[1 + Raiss.default_lamb * (11 / 10)]]
                           (Raiss.default_rtol * (11 / 10))
  <> None /\
  Raiss._invert_sig_t (Raiss.pinv_failing_below (11 / 1000)) 0%nat
                      Raiss.default_lamb Raiss.default_rtol
                      Raiss.one_variant_store
  = ([Raiss.Mat [[1 + Raiss.default_lamb]]], Raiss.Raise Raiss.NameError).
Proof.
  split.
  - unfold Raiss.pinv_failing_below, Raiss.default_rtol.
    destruct (Rlt_dec (1 / 100 * (11 / 10)) (11 / 1000)); [lra | discriminate].
  - refine (proj1 (raiss_inversion_no_retry
                     (Raiss.pinv_failing_below (11 / 1000)) [1] 0%nat [[0]]
                     Raiss.default_lamb Raiss.default_rtol
                     Raiss.one_variant_store [[1]] eq_refl _)).
    unfold Raiss.pinv_failing_below, Raiss.default_rtol.
    destruct (Rlt_dec (1 / 100) (11 / 1000)); [reflexivity | lra].
Defined.


(* ================================================================== *)
(** * Further properties *)
(* ================================================================== *)

(** ** COLOC: the log-sum and the emitted rows *)

Lemma logsum_upper (v : list R) (x : R) :
  In x v -> x <= Coloc._get_logsum v.
Proof.
  intros Hin.
  assert (Hne : v <> []) by (intros ->; inversion Hin).
  rewrite (logsum_ln_total v Hne).
  assert (Hle : exp x <= Spark.total (map exp v)).
  { clear Hne. induction v as [| y v IH]; [inversion Hin |]. simpl.
    assert (Hpos : 0 <= Spark.total (map exp v)).
    { destruct v; [simpl; lra |]. left.
      apply (total_exp_pos (r :: v) (fun x => x)). discriminate. }
    destruct Hin as [-> | Hin]; [lra |].
    specialize (IH Hin). pose proof (exp_pos y). lra. }
  rewrite <- (ln_exp x) at 1.
  destruct (Rle_lt_or_eq_dec _ _ Hle) as [Hlt | Heq].
  - left. apply ln_increasing; [apply exp_pos | exact Hlt].
  - rewrite Heq. lra.
Qed.

(** X1.  For a non-empty vector, [Coloc._get_logsum] is the logarithm of
    the sum of the exponentials of its entries, whatever the maximum that
    is taken out, and it is at least every entry. *)
Theorem coloc_logsum_is_log_sum_exp (v : list R) :
  v <> [] ->
  Coloc._get_logsum v = ln (Spark.total (map exp v)) /\
  forall x, In x v -> x <= Coloc._get_logsum v.
Proof.
  intros Hne. split; [now apply logsum_ln_total | apply logsum_upper].
Qed.

(** X1 on the vector of the docstring. *)
Lemma coloc_logsum_is_log_sum_exp_example :
  Coloc._get_logsum [2 / 10; 1 / 10; 5 / 100; 0]
  = ln (exp (2 / 10) + (exp (1 / 10) + (exp (5 / 100) + (exp 0 + 0)))).
Proof.
  apply (proj1 (coloc_logsum_is_log_sum_exp [2 / 10; 1 / 10; 5 / 100; 0]
                                            ltac:(discriminate))).
Defined.

(** The row of an emitted group, field by field. *)
Lemma colocalise_group_row
      (priorc1 priorc2 priorc12 : R) (key : string * Z * Z)
      (rows : list OverlapRow) (out : Coloc.Colocalisation) :
  Coloc.colocalise_group priorc1 priorc2 priorc12 key rows = Coloc.Emitted out ->
  exists l1 l2 l3 l4,
    let posteriors := Coloc._get_posteriors [0; l1; l2; l3; l4] in
    Coloc.coloc_h0 out = Coloc.nth5 posteriors 0 /\
    Coloc.coloc_h1 out = Coloc.nth5 posteriors 1 /\
    Coloc.coloc_h2 out = Coloc.nth5 posteriors 2 /\
    Coloc.coloc_h3 out = Coloc.nth5 posteriors 3 /\
    Coloc.coloc_h4 out = Coloc.nth5 posteriors 4 /\
    Coloc.coloc_log2_h4_h3 out
    = Spark.log2 (Spark.div (Some (Coloc.nth5 posteriors 4))
                            (Some (Coloc.nth5 posteriors 3))) /\
    Coloc.coloc_n_vars out = Spark.count_star rows /\
    Coloc.colocalisationMethod out = "COLOC"%string.
Proof.
  unfold Coloc.colocalise_group.
  destruct (Req_dec_T _ _) as [| Hneq]; [discriminate |].
  destruct (Spark.add (Spark.log (Some priorc1)) _) as [l1 |]; [| discriminate].
  destruct (Spark.add (Spark.log (Some priorc2)) _) as [l2 |]; [| discriminate].
  destruct (Spark.add (Spark.add _ _) _) as [l3 |]; [| discriminate].
  destruct (Spark.add (Spark.log (Some priorc12)) _) as [l4 |]; [| discriminate].
  intros [= <-]. exists l1, l2, l3, l4. cbn zeta. repeat split; reflexivity.
Qed.

Lemma posteriors_five (l0 l1 l2 l3 l4 : R) :
  let p := Coloc._get_posteriors [l0; l1; l2; l3; l4] in
  0 < Coloc.nth5 p 0 /\ 0 < Coloc.nth5 p 1 /\ 0 < Coloc.nth5 p 2 /\
  0 < Coloc.nth5 p 3 /\ 0 < Coloc.nth5 p 4 /\
  Coloc.nth5 p 0 + Coloc.nth5 p 1 + Coloc.nth5 p 2
  + Coloc.nth5 p 3 + Coloc.nth5 p 4 = 1.
Proof.
  intros p.
  pose proof (posteriors_total [l0; l1; l2; l3; l4] ltac:(discriminate)) as Hs.
  fold p in Hs. unfold p, Coloc._get_posteriors, Coloc.nth5 in *.
  simpl in *. repeat split; try apply exp_pos. lra.
Qed.

(** X2.  Every posterior probability of an emitted row lies between 0
    and 1, the bounds included. *)
Theorem coloc_posteriors_are_probabilities
        (df : list OverlapRow) (priorc1 priorc2 priorc12 : R)
        (out : Coloc.Colocalisation) :
  In out (Coloc.colocalise df priorc1 priorc2 priorc12) ->
  0 <= Coloc.coloc_h0 out <= 1 /\ 0 <= Coloc.coloc_h1 out <= 1 /\
  0 <= Coloc.coloc_h2 out <= 1 /\ 0 <= Coloc.coloc_h3 out <= 1 /\
  0 <= Coloc.coloc_h4 out <= 1.
Proof.
  intros Hin. apply colocalise_In in Hin. destruct Hin as (key & _ & Hg).
  destruct (colocalise_group_row _ _ _ _ _ _ Hg)
    as (l1 & l2 & l3 & l4 & H0 & H1 & H2 & H3 & H4 & _).
  pose proof (posteriors_five 0 l1 l2 l3 l4) as (P0 & P1 & P2 & P3 & P4 & Ps).
  rewrite H0, H1, H2, H3, H4. lra.
Qed.

(** X2 on an overlap of two shared variants. *)
Lemma coloc_posteriors_are_probabilities_example :
  exists out,
    In out (Coloc.colocalise Coloc.two_shared_variants Coloc.default_priorc1
                             Coloc.default_priorc2 Coloc.default_priorc12) /\
    0 <= Coloc.coloc_h4 out <= 1.
Proof.
  destruct (colocalise_group_emits
              Coloc.default_priorc1 Coloc.default_priorc2 Coloc.default_priorc12
              ("1"%string, 1%Z, 2%Z) Coloc.two_shared_variants)
    as (out & Hout).
  - unfold Coloc.default_priorc1. lra.
  - unfold Coloc.default_priorc2. lra.
  - unfold Coloc.default_priorc12. lra.
  - simpl. lia.
  - assert (Hin : In out (Coloc.colocalise Coloc.two_shared_variants
                            Coloc.default_priorc1 Coloc.default_priorc2
                            Coloc.default_priorc12)).
    { apply colocalise_In. exists ("1"%string, 1%Z, 2%Z).
      split; [discriminate | exact Hout]. }
    exists out. split; [exact Hin |].
    apply (coloc_posteriors_are_probabilities _ _ _ _ out Hin).
Defined.

(** ** eCAVIAR: the returned table *)





Lemma contribution_bound (rows : list OverlapRow) :
  (forall row p, In row rows -> left_posteriorProbability row = Some p -> 0 <= p) ->
  (forall row p, In row rows -> right_posteriorProbability row = Some p -> 0 <= p) ->
  0 <= Spark.total (Spark.present (map left_posteriorProbability rows)) /\
  0 <= Spark.total (Spark.present (map right_posteriorProbability rows)) /\
  0 <= Spark.total (map ECaviar.contribution rows)
  <= Spark.total (Spark.present (map left_posteriorProbability rows))
     * Spark.total (Spark.present (map right_posteriorProbability rows)).
Proof.
  induction rows as [| row rows IH]; intros Hl Hr; simpl; [lra |].
  destruct IH as (HA & HB & HC).
  { intros r p Hin. apply Hl. now right. }
  { intros r p Hin. apply Hr. now right. }
  unfold ECaviar.contribution at 1 3.
  pose proof (Hl row) as Hl0. pose proof (Hr row) as Hr0.
  destruct (left_posteriorProbability row) as [a |],
           (right_posteriorProbability row) as [b |]; simpl.
  - specialize (Hl0 a (or_introl eq_refl) eq_refl).
    specialize (Hr0 b (or_introl eq_refl) eq_refl). nra.
  - specialize (Hl0 a (or_introl eq_refl) eq_refl). nra.
  - specialize (Hr0 b (or_introl eq_refl) eq_refl). nra.
  - nra.
Qed.

(** X7.  When the posterior probabilities of a pair are non-negative and
    add up to at most one on either side, the [clpp] that
    [ECaviar.colocalise] returns for the pair lies between 0 and 1. *)
Theorem ecaviar_clpp_is_probability
        (df : list OverlapRow) (out : ECaviar.Colocalisation) :
  In out (ECaviar.colocalise df) ->
  let rows := ECaviar.pair_rows df (ECaviar.res_left out) (ECaviar.res_right out) in
  (forall row p, In row rows -> left_posteriorProbability row = Some p -> 0 <= p) ->
  (forall row p, In row rows -> right_posteriorProbability row = Some p -> 0 <= p) ->
  Spark.total (Spark.present (map left_posteriorProbability rows)) <= 1 ->
  Spark.total (Spark.present (map right_posteriorProbability rows)) <= 1 ->
  forall s, ECaviar.clpp out = Some s -> 0 <= s <= 1.
Proof.
  intros Hin rows Hl Hr HA1 HB1 s Hs.
  apply ecaviar_out_inv in Hin. destruct Hin as (_ & Hout). fold rows in Hout.
  assert (Hc : ECaviar.clpp out = Spark.sum (map ECaviar.row_clpp rows))
    by (rewrite Hout at 1; reflexivity).
  rewrite Hc, sum_skips_nulls in Hs.
  assert (Hs' : s = Spark.total (map ECaviar.contribution rows)).
  { rewrite <- ecaviar_present_total.
    destruct (Spark.present (map ECaviar.row_clpp rows)); [discriminate |].
    now injection Hs as <-. }
  destruct (contribution_bound rows Hl Hr) as (HA & HB & HC).
  rewrite Hs'. nra.
Qed.

(** X7 on three shared variants with the posterior probabilities 0.5,
    0.4 and 0.1 on both sides. *)
Lemma ecaviar_clpp_is_probability_example :
  exists out s,
    In out (ECaviar.colocalise ECaviar.three_shared_variants) /\
    ECaviar.clpp out = Some s /\ 0 <= s <= 1.
Proof.
  set (out := {| ECaviar.res_left := 1; ECaviar.res_right := 2;
                 ECaviar.coloc_n_vars := 3;
                 ECaviar.clpp := Some (5 / 10 * (5 / 10) + 4 / 10 * (4 / 10)
                                       + 1 / 10 * (1 / 10));
                 ECaviar.colocalisationMethod := "eCAVIAR" |}).
  assert (Hin : In out (ECaviar.colocalise ECaviar.three_shared_variants))
    by (left; reflexivity).
  exists out, (5 / 10 * (5 / 10) + 4 / 10 * (4 / 10) + 1 / 10 * (1 / 10)).
  split; [exact Hin |]. split; [reflexivity |].
  apply (ecaviar_clpp_is_probability ECaviar.three_shared_variants out Hin).
  - intros row p [<- | [<- | [<- | []]]] [= <-]; lra.
  - intros row p [<- | [<- | [<- | []]]] [= <-]; lra.
  - simpl. lra.
  - simpl. lra.
  - reflexivity.
Defined.

(** ** Harmonisation: alleles *)

Lemma string_app_nil_r (s : string) : (s ++ "")%string = s.
Proof. induction s as [| c s IH]; simpl; [reflexivity | now rewrite IH]. Qed.

Lemma string_app_assoc (s t u : string) :
  ((s ++ t) ++ u)%string = (s ++ (t ++ u))%string.
Proof. induction s as [| c s IH]; simpl; [reflexivity | now rewrite IH]. Qed.

Lemma reverse_app (s t : string) :
  Harmonise.reverse (s ++ t) = (Harmonise.reverse t ++ Harmonise.reverse s)%string.
Proof.
  induction s as [| c s IH]; simpl.
  - now rewrite string_app_nil_r.
  - now rewrite IH, string_app_assoc.
Qed.

Lemma reverse_involutive (s : string) :
  Harmonise.reverse (Harmonise.reverse s) = s.
Proof.
  induction s as [| c s IH]; simpl; [reflexivity |].
  rewrite reverse_app, IH. reflexivity.
Qed.

Lemma translate_char_involutive (c : ascii) :
  Harmonise.translate_char (Harmonise.translate_char c) = c.
Proof.
  unfold Harmonise.translate_char.
  destruct (Ascii.eqb c "A") eqn:EA; [apply Ascii.eqb_eq in EA; now subst |].
  destruct (Ascii.eqb c "C") eqn:EC; [apply Ascii.eqb_eq in EC; now subst |].
  destruct (Ascii.eqb c "T") eqn:ET; [apply Ascii.eqb_eq in ET; now subst |].
  destruct (Ascii.eqb c "G") eqn:EG; [apply Ascii.eqb_eq in EG; now subst |].
  now rewrite EA, EC, ET, EG.
Qed.

Lemma translate_char_ACTG (c : ascii) :
  Harmonise.is_ACTG (Harmonise.translate_char c) = Harmonise.is_ACTG c.
Proof.
  unfold Harmonise.translate_char, Harmonise.is_ACTG.
  destruct (Ascii.eqb c "A") eqn:EA; [reflexivity |].
  destruct (Ascii.eqb c "C") eqn:EC; [reflexivity |].
  destruct (Ascii.eqb c "T") eqn:ET; [reflexivity |].
  destruct (Ascii.eqb c "G") eqn:EG; [reflexivity |].
  now rewrite EA, EC, ET, EG.
Qed.

Lemma translate_involutive (s : string) :
  Harmonise.translate (Harmonise.translate s) = s.
Proof.
  induction s as [| c s IH]; simpl; [reflexivity |].
  now rewrite translate_char_involutive, IH.
Qed.

Lemma translate_app (s t : string) :
  Harmonise.translate (s ++ t)
  = (Harmonise.translate s ++ Harmonise.translate t)%string.
Proof. induction s as [| c s IH]; simpl; [reflexivity | now rewrite IH]. Qed.

Lemma translate_reverse (s : string) :
  Harmonise.translate (Harmonise.reverse s)
  = Harmonise.reverse (Harmonise.translate s).
Proof.
  induction s as [| c s IH]; simpl; [reflexivity |].
  rewrite translate_app, IH. reflexivity.
Qed.

Lemma rlike_app (s t : string) :
  Harmonise.rlike_ACTG (s ++ t)
  = (Harmonise.rlike_ACTG s || Harmonise.rlike_ACTG t)%bool.
Proof.
  induction s as [| c s IH]; simpl; [reflexivity |].
  rewrite IH. now rewrite orb_assoc.
Qed.

Lemma rlike_reverse (s : string) :
  Harmonise.rlike_ACTG (Harmonise.reverse s) = Harmonise.rlike_ACTG s.
Proof.
  induction s as [| c s IH]; simpl; [reflexivity |].
  rewrite rlike_app, IH. simpl. rewrite orb_false_r. apply orb_comm.
Qed.

Lemma rlike_translate (s : string) :
  Harmonise.rlike_ACTG (Harmonise.translate s) = Harmonise.rlike_ACTG s.
Proof.
  induction s as [| c s IH]; simpl; [reflexivity |].
  now rewrite translate_char_ACTG, IH.
Qed.

Lemma reverse_length (s : string) :
  String.length (Harmonise.reverse s) = String.length s.
Proof.
  induction s as [| c s IH]; simpl; [reflexivity |].
  assert (Happ : forall a b, String.length (a ++ b)
                             = (String.length a + String.length b)%nat).
  { intros a b. induction a as [| x a IHa]; simpl; [reflexivity | now rewrite IHa]. }
  rewrite Happ, IH. simpl. lia.
Qed.

Lemma translate_length (s : string) :
  String.length (Harmonise.translate s) = String.length s.
Proof. induction s as [| c s IH]; simpl; [reflexivity | now rewrite IH]. Qed.

(** X8.  [_get_reverse_complement] is an involution on every allele
    column, null included, and it keeps the length of the allele. *)
Theorem reverse_complement_involutive (allele : option string) :
  Harmonise._get_reverse_complement (Harmonise._get_reverse_complement allele)
  = allele /\
  forall a, allele = Some a ->
            String.length (Harmonise.reverse_complement a) = String.length a.
Proof.
  split.
  - destruct allele as [a |]; [| reflexivity]. simpl. f_equal.
    unfold Harmonise.reverse_complement.
    destruct (Harmonise.rlike_ACTG a) eqn:E.
    + rewrite rlike_reverse, rlike_translate, E.
      rewrite translate_reverse, reverse_involutive. apply translate_involutive.
    + now rewrite E.
  - intros a _. unfold Harmonise.reverse_complement.
    destruct (Harmonise.rlike_ACTG a); [| reflexivity].
    now rewrite reverse_length, translate_length.
Qed.

(** ** Harmonisation: z-scores *)

(** X9.  [_pval_to_zscore] is null only for a null p-value (or a string
    that is no number): the guard [if pv else None] never fires on a number,
    a zero having been replaced before. *)
Theorem pval_to_zscore_null_iff_null (pval_col : option R) :
  Harmonise._pval_to_zscore pval_col = None <-> pval_col = None.
Proof.
  split; [| intros ->; reflexivity].
  destruct pval_col as [p |]; [| reflexivity].
  unfold Harmonise._pval_to_zscore. simpl.
  destruct (Harmonise.cast_FloatType p) as [x | neg]; simpl.
  - destruct (Req_dec_T x 0) as [Hz | Hnz]; simpl.
    + pose proof float_info_min_pos.
      destruct (Req_dec_T Harmonise.float_info_min 0); [lra | discriminate].
    + destruct (Req_dec_T x 0); [contradiction | discriminate].
  - discriminate.
Qed.

(** ** Harmonisation: effect sizes *)

Lemma and3_null_never_true (x : option bool) :
  Spark.holds (Spark.and3 None x) = false.
Proof. destruct x as [[|] |]; reflexivity. Qed.

(** X10.  An effect size becomes a beta or an odds ratio, never both:
    [_harmonize_beta] and [_harmonize_odds_ratio] are not both non-null on
    the same record.  When the confidence-interval text is null, both are
    null, whatever the effect size. *)
Theorem beta_and_odds_ratio_exclusive
        (effect_size : option R) (confidence_interval : option string)
        (needs_harmonization : option bool) :
  (Harmonise._harmonize_beta effect_size confidence_interval needs_harmonization
   = None \/
   Harmonise._harmonize_odds_ratio effect_size confidence_interval
                                   needs_harmonization = None) /\
  (confidence_interval = None ->
   Harmonise._harmonize_beta effect_size confidence_interval needs_harmonization
   = None /\
   Harmonise._harmonize_odds_ratio effect_size confidence_interval
                                   needs_harmonization = None).
Proof.
  unfold Harmonise._harmonize_beta, Harmonise._harmonize_odds_ratio,
    Harmonise.col_contains.
  destruct confidence_interval as [s |]; simpl.
  - split; [| discriminate].
    destruct (Harmonise.contains s "increase"), (Harmonise.contains s "decrease");
      simpl; destruct needs_harmonization as [[|] |]; simpl; auto.
  - destruct needs_harmonization as [[|] |]; simpl; auto.
Qed.

(** X11.  The sign of the harmonised beta.  With a text that says
    "increase" and not "decrease", the beta is the effect size, negated when
    harmonisation is needed; with "decrease" and not "increase" it is the
    other way round; a text that says both always negates the effect. *)
Theorem harmonize_beta_sign (e : R) (s : string) :
  (Harmonise.contains s "increase" = true ->
   Harmonise.contains s "decrease" = false ->
   Harmonise._harmonize_beta (Some e) (Some s) (Some false) = Some e /\
   Harmonise._harmonize_beta (Some e) (Some s) (Some true) = Some (e * -1)) /\
  (Harmonise.contains s "increase" = false ->
   Harmonise.contains s "decrease" = true ->
   Harmonise._harmonize_beta (Some e) (Some s) (Some false) = Some (e * -1) /\
   Harmonise._harmonize_beta (Some e) (Some s) (Some true) = Some e) /\
  (Harmonise.contains s "increase" = true ->
   Harmonise.contains s "decrease" = true ->
   forall needs,
     Harmonise._harmonize_beta (Some e) (Some s) (Some needs) = Some (e * -1)).
Proof.
  unfold Harmonise._harmonize_beta, Harmonise.col_contains.
  split; [| split].
  - intros Hi Hd. simpl. rewrite Hi, Hd. split; reflexivity.
  - intros Hi Hd. simpl. rewrite Hi, Hd. split; reflexivity.
  - intros Hi Hd [|]; simpl; rewrite Hi, Hd; reflexivity.
Qed.

(** X11 on a text of the GWAS Catalog. *)
Lemma harmonize_beta_sign_example :
  Harmonise._harmonize_beta (Some (3 / 10)) (Some "[0.1-0.5] unit decrease"%string)
                            (Some false)
  = Some (3 / 10 * -1).
Proof.
  apply (proj1 (proj2 (harmonize_beta_sign
                         (3 / 10) "[0.1-0.5] unit decrease"%string))).
  - reflexivity.
  - reflexivity.
Defined.

(** X12.  The harmonised odds ratio.  With a text that says neither
    "increase" nor "decrease", the odds ratio is the effect size, and its
    inverse when harmonisation is needed; the inverse of a zero odds ratio
    is null. *)
Theorem harmonize_odds_ratio_inverse (e : R) (s : string) :
  Harmonise.contains s "increase" = false ->
  Harmonise.contains s "decrease" = false ->
  Harmonise._harmonize_odds_ratio (Some e) (Some s) (Some false) = Some e /\
  (e <> 0 ->
   Harmonise._harmonize_odds_ratio (Some e) (Some s) (Some true) = Some (1 / e)) /\
  (e = 0 ->
   Harmonise._harmonize_odds_ratio (Some e) (Some s) (Some true) = None).
Proof.
  intros Hi Hd.
  unfold Harmonise._harmonize_odds_ratio, Harmonise.col_contains. simpl.
  rewrite Hi, Hd. simpl. repeat split.
  - intros He. destruct (Req_dec_T e 0); [contradiction | reflexivity].
  - intros He. destruct (Req_dec_T e 0); [reflexivity | contradiction].
Qed.

(** X12 on an odds ratio of 2 that needs harmonisation. *)
Lemma harmonize_odds_ratio_inverse_example :
  Harmonise._harmonize_odds_ratio (Some 2) (Some "[1.5-2.5]"%string) (Some true)
  = Some (1 / 2).
Proof.
  apply (proj1 (proj2 (harmonize_odds_ratio_inverse 2 "[1.5-2.5]"%string
                                                    eq_refl eq_refl))).
  lra.
Defined.

(** X13.  The confidence interval of a beta is centred on it: with a
    non-zero z-score both bounds are present, they are at the same
    distance [|1.96 * beta| / zscore] on either side of the beta, and with a
    positive z-score the lower bound is the smaller one.  With a z-score of
    zero both bounds are null. *)
Theorem beta_ci_centred (beta zscore : R) :
  (zscore <> 0 ->
   Harmonise._calculate_beta_ci (Some beta) (Some zscore) (Some "upper"%string)
   = Some (beta + Rabs (196 / 100 * beta) / zscore) /\
   Harmonise._calculate_beta_ci (Some beta) (Some zscore) (Some "lower"%string)
   = Some (beta - Rabs (196 / 100 * beta) / zscore) /\
   (0 < zscore ->
    beta - Rabs (196 / 100 * beta) / zscore <= beta
    <= beta + Rabs (196 / 100 * beta) / zscore)) /\
  (zscore = 0 ->
   Harmonise._calculate_beta_ci (Some beta) (Some zscore) (Some "upper"%string)
   = None /\
   Harmonise._calculate_beta_ci (Some beta) (Some zscore) (Some "lower"%string)
   = None).
Proof.
  unfold Harmonise._calculate_beta_ci, Harmonise.zscore_95, Harmonise.col_abs.
  simpl. split.
  - intros Hz. destruct (Req_dec_T zscore 0); [contradiction |]. simpl.
    split; [reflexivity |]. split; [reflexivity |]. intros Hpos.
    assert (0 <= Rabs (196 / 100 * beta) / zscore)
      by (apply Rmult_le_pos;
          [apply Rabs_pos | left; now apply Rinv_0_lt_compat]).
    lra.
  - intros Hz. destruct (Req_dec_T zscore 0); [| contradiction]. split; reflexivity.
Qed.

(** X13 on a beta of 1 and a z-score of 2. *)
Lemma beta_ci_centred_example :
  Harmonise._calculate_beta_ci (Some 1) (Some 2) (Some "upper"%string)
  = Some (1 + Rabs (196 / 100 * 1) / 2).
Proof.
  apply (proj1 (proj1 (beta_ci_centred 1 2) ltac:(lra))).
Defined.

(** X14.  The confidence interval of an odds ratio brackets it: for a
    positive odds ratio and a non-zero z-score both bounds are present,
    [lower <= odds_ratio <= upper], and [lower * upper = odds_ratio ^ 2].
    An odds ratio that is not positive, or a z-score of zero, has null
    bounds. *)
Theorem or_ci_brackets (odds_ratio zscore : R) :
  (0 < odds_ratio -> zscore <> 0 ->
   exists lower upper,
     Harmonise._calculate_or_ci (Some odds_ratio) (Some zscore)
                                (Some "lower"%string) = Some lower /\
     Harmonise._calculate_or_ci (Some odds_ratio) (Some zscore)
                                (Some "upper"%string) = Some upper /\
     lower <= odds_ratio <= upper /\
     lower * upper = odds_ratio ^ 2) /\
  (odds_ratio <= 0 \/ zscore = 0 ->
   Harmonise._calculate_or_ci (Some odds_ratio) (Some zscore)
                              (Some "lower"%string) = None /\
   Harmonise._calculate_or_ci (Some odds_ratio) (Some zscore)
                              (Some "upper"%string) = None).
Proof.
  unfold Harmonise._calculate_or_ci, Harmonise.zscore_95, Harmonise.col_abs,
    Harmonise.col_exp. simpl. split.
  - intros Ho Hz.
    destruct (Rlt_dec 0 odds_ratio) as [_ | Hn]; [| contradiction]. simpl.
    destruct (Req_dec_T zscore 0); [contradiction |]. simpl.
    set (a := Rabs (196 / 100 * (ln odds_ratio / zscore))).
    assert (Ha : 0 <= a) by apply Rabs_pos.
    exists (exp (ln odds_ratio - a)), (exp (ln odds_ratio + a)).
    split; [reflexivity |]. split; [reflexivity |].
    assert (Hl : exp (ln odds_ratio - a) <= odds_ratio)
      by (rewrite <- (exp_ln odds_ratio) at 2 by assumption; apply exp_le; lra).
    assert (Hu : odds_ratio <= exp (ln odds_ratio + a))
      by (rewrite <- (exp_ln odds_ratio) at 1 by assumption; apply exp_le; lra).
    split; [lra |].
    rewrite <- exp_plus.
    replace (ln odds_ratio - a + (ln odds_ratio + a))
      with (ln odds_ratio + ln odds_ratio) by lra.
    rewrite exp_plus, exp_ln by assumption. ring.
  - intros [Ho | Hz].
    + destruct (Rlt_dec 0 odds_ratio) as [Hp | _]; [lra |]. split; reflexivity.
    + destruct (Rlt_dec 0 odds_ratio) as [_ | _]; simpl.
      * destruct (Req_dec_T zscore 0); [| contradiction]. split; reflexivity.
      * split; reflexivity.
Qed.

(** X14 on an odds ratio of 2 and a z-score of 3. *)
Lemma or_ci_brackets_example :
  exists lower upper,
    Harmonise._calculate_or_ci (Some 2) (Some 3) (Some "lower"%string)
    = Some lower /\
    Harmonise._calculate_or_ci (Some 2) (Some 3) (Some "upper"%string)
    = Some upper /\
    lower <= 2 <= upper.
Proof.
  destruct (proj1 (or_ci_brackets 2 3) ltac:(lra) ltac:(lra))
    as (lower & upper & Hl & Hu & Hb & _).
  now exists lower, upper.
Defined.

(** ** RAISS: boundaries, shapes and the diagonal *)

Lemma in_boundaries_range (lamb : R) (var : Raiss.vector) :
  0 <= lamb ->
  Forall (fun v => 0 <= v <= 1 + lamb) (Raiss.in_boundaries lamb var).
Proof.
  intros Hl. unfold Raiss.in_boundaries.
  induction var as [| v var IH]; simpl; constructor; [| exact IH].
  destruct (Rlt_dec v 0); destruct (Rlt_dec _ _); lra.
Qed.

Lemma in_boundaries_idempotent (lamb : R) (var : Raiss.vector) :
  Raiss.in_boundaries lamb (Raiss.in_boundaries lamb var)
  = Raiss.in_boundaries lamb var.
Proof.
  unfold Raiss.in_boundaries.
  induction var as [| v var IH]; simpl; [reflexivity |]. rewrite IH. f_equal.
  destruct (Rlt_dec v 0) as [Hv | Hv].
  - destruct (Rlt_dec (99999 / 100000 + lamb) 0) as [Hc | Hc].
    + destruct (Rlt_dec 1 0); [lra |].
      destruct (Rlt_dec (99999 / 100000 + lamb) 1); [reflexivity | lra].
    + destruct (Rlt_dec 0 0); [lra |].
      destruct (Rlt_dec (99999 / 100000 + lamb) 0); [contradiction | reflexivity].
  - destruct (Rlt_dec (99999 / 100000 + lamb) v) as [Hc | Hc].
    + destruct (Rlt_dec 1 0); [lra |].
      destruct (Rlt_dec (99999 / 100000 + lamb) 1) as [H1 | H1]; [reflexivity |].
      reflexivity.
    + destruct (Rlt_dec v 0); [contradiction |].
      destruct (Rlt_dec (99999 / 100000 + lamb) v); [contradiction | reflexivity].
Qed.

Lemma in_boundaries_keeps (lamb : R) (var : Raiss.vector) :
  Forall (fun v => 0 <= v <= 99999 / 100000 + lamb) var ->
  Raiss.in_boundaries lamb var = var.
Proof.
  unfold Raiss.in_boundaries.
  induction 1 as [| v var Hv Hvar IH]; simpl; [reflexivity |].
  rewrite IH. f_equal.
  destruct (Rlt_dec v 0); [lra |]. destruct (Rlt_dec _ v); [lra | reflexivity].
Qed.

(** X15.  [_var_in_boundaries] works in place and returns the array it
    was given.  For a non-negative [lamb] every entry ends up between 0 and
    [1 + lamb]; an array whose entries are already between 0 and
    [0.99999 + lamb] is left as it is; the length is kept; a second call
    changes nothing. *)
Theorem var_in_boundaries_range
        (var : Raiss.ref) (lamb : R) (h : Raiss.Heap) (v : Raiss.vector) :
  nth_error h var = Some (Raiss.Vec v) ->
  0 <= lamb ->
  let h' := fst (Raiss._var_in_boundaries var lamb h) in
  snd (Raiss._var_in_boundaries var lamb h) = var /\
  Forall (fun x => 0 <= x <= 1 + lamb) (Raiss.read_vec h' var) /\
  List.length (Raiss.read_vec h' var) = List.length v /\
  (Forall (fun x => 0 <= x <= 99999 / 100000 + lamb) v ->
   Raiss.read_vec h' var = v) /\
  Raiss._var_in_boundaries var lamb h' = (h', var).
Proof.
  intros Hv Hl h'.
  pose proof (nth_error_valid _ _ _ Hv) as Hvalid.
  assert (Hread : Raiss.read_vec h var = v)
    by (unfold Raiss.read_vec; now rewrite Hv).
  unfold h'. rewrite (var_in_boundaries_spec var lamb h Hvalid). cbn [fst snd].
  rewrite Hread, read_vec_write by exact Hvalid.
  split; [reflexivity |]. split; [now apply in_boundaries_range |].
  split; [unfold Raiss.in_boundaries; now rewrite !length_map |].
  split; [apply in_boundaries_keeps |].
  rewrite var_in_boundaries_spec by (rewrite write_length; exact Hvalid).
  rewrite read_vec_write by exact Hvalid.
  now rewrite in_boundaries_idempotent, write_write.
Qed.

(** X15 on the variances -0.5, 0.3 and 2 with [lamb = 0.01]. *)
Lemma var_in_boundaries_range_example :
  Forall (fun x => 0 <= x <= 1 + Raiss.default_lamb)
         (Raiss.read_vec
            (fst (Raiss._var_in_boundaries 0%nat Raiss.default_lamb
                                           Raiss.three_variances_store)) 0%nat).
Proof.
  apply (var_in_boundaries_range 0%nat Raiss.default_lamb
                                 Raiss.three_variances_store
                                 [- (1 / 2); 3 / 10; 2] eq_refl).
  unfold Raiss.default_lamb. lra.
Defined.

Lemma set_nth_length (i : nat) (val : R) (row : Raiss.vector) :
  List.length (Raiss.set_nth i val row) = List.length row.
Proof.
  revert i. induction row as [| x row IH]; intros [| i]; simpl; auto.
Qed.

Lemma nth_set_nth_same (i : nat) (val : R) (row : Raiss.vector) :
  (i < List.length row)%nat -> nth i (Raiss.set_nth i val row) 0 = val.
Proof.
  revert i. induction row as [| x row IH]; intros [| i] Hi; simpl in *; try lia.
  - reflexivity.
  - apply IH. lia.
Qed.

Lemma fill_diagonal_from_shape (s : nat) (m : Raiss.matrix) (val : R) :
  List.length (Raiss.fill_diagonal_from s m val) = List.length m /\
  forall i, List.length (nth i (Raiss.fill_diagonal_from s m val) [])
            = List.length (nth i m []).
Proof.
  revert s. induction m as [| row m IH]; intros s; simpl.
  - split; [reflexivity | now intros [| i]].
  - destruct (IH (S s)) as (Hlen & Hrows). split; [now rewrite Hlen |].
    intros [| i]; [apply set_nth_length | apply Hrows].
Qed.

Lemma fill_diagonal_from_diag (s : nat) (m : Raiss.matrix) (val : R) (i : nat) :
  (i < List.length m)%nat ->
  (s + i < List.length (nth i m []))%nat ->
  Raiss.entry (Raiss.fill_diagonal_from s m val) i (s + i) = val.
Proof.
  unfold Raiss.entry. revert s i.
  induction m as [| row m IH]; intros s [| i] Hi Hrow; simpl in *; try lia.
  - rewrite Nat.add_0_r in *. now apply nth_set_nth_same.
  - replace (s + S i)%nat with (S s + i)%nat by lia.
    apply IH; [lia |]. now replace (S s + i)%nat with (s + S i)%nat by lia.
Qed.

(** X17.  [np.fill_diagonal], as [_invert_sig_t] calls it, keeps the
    shape of the caller's matrix, sets every entry of the diagonal that
    exists to the value, and leaves every other entry as it was. *)
Theorem fill_diagonal_in_place
        (a : Raiss.ref) (val : R) (h : Raiss.Heap) (m : Raiss.matrix) :
  nth_error h a = Some (Raiss.Mat m) ->
  let m' := Raiss.read_mat (Raiss.np_fill_diagonal a val h) a in
  List.length m' = List.length m /\
  (forall i, List.length (nth i m' []) = List.length (nth i m [])) /\
  (forall i, (i < List.length m)%nat -> (i < List.length (nth i m []))%nat ->
             Raiss.entry m' i i = val) /\
  (forall i j, i <> j -> Raiss.entry m' i j = Raiss.entry m i j).
Proof.
  intros Hm m'.
  destruct (fill_diagonal_heap h a m val Hm) as (_ & Hr).
  assert (Hm' : m' = Raiss.fill_diagonal m val)
    by (unfold m', Raiss.read_mat; now rewrite Hr).
  rewrite Hm'. unfold Raiss.fill_diagonal.
  destruct (fill_diagonal_from_shape 0 m val) as (Hlen & Hrows).
  repeat split; try assumption.
  - intros i Hi Hrow. apply (fill_diagonal_from_diag 0 m val i Hi Hrow).
  - intros i j Hij. now apply entry_fill_diagonal.
Qed.

(** X17 on the observed LD matrix [[1]]. *)
Lemma fill_diagonal_in_place_example :
  Raiss.entry
    (Raiss.read_mat (Raiss.np_fill_diagonal 0%nat (101 / 100)
                                            Raiss.one_variant_store) 0%nat)
    0 0
  = 101 / 100.
Proof.
  apply (proj1 (proj2 (proj2 (fill_diagonal_in_place
                                0%nat (101 / 100) Raiss.one_variant_store
                                [[1]] eq_refl)))); simpl; lia.
Defined.

(** ** Discovery samples: splitting the ancestry string *)

Lemma split_from_no_comma (s cur : string) :
  StudyIndex.occurs "," s = false ->
  StudyIndex.split_from s cur = [(cur ++ s)%string].
Proof.
  revert cur. induction s as [| c rest IH]; intros cur Hno; simpl.
  - now rewrite string_app_nil_r.
  - simpl in Hno. apply orb_false_iff in Hno. destruct Hno as (Hc & Hrest).
    rewrite Hc. destruct rest as [| w rest'].
    + reflexivity.
    + cbn [andb]. rewrite (IH _ Hrest). now rewrite string_app_assoc.
Qed.

Lemma split_from_cases (c : ascii) (rest cur : string) :
  StudyIndex.split_from (String c rest) cur
  = StudyIndex.split_from rest (cur ++ String c EmptyString)
  \/ exists w rest',
      rest = String w rest' /\ c = ","%char /\ StudyIndex.is_space w = true /\
      StudyIndex.split_from (String c rest) cur
      = cur :: StudyIndex.split_from rest' EmptyString.
Proof.
  destruct rest as [| w rest']; [left; reflexivity |].
  cbn [StudyIndex.split_from].
  destruct (Ascii.eqb c ",") eqn:Ec; [| left; reflexivity].
  destruct (StudyIndex.is_space w) eqn:Ew; [| left; reflexivity].
  destruct (StudyIndex.closes_paren rest') eqn:Ep; [left; reflexivity |].
  right. exists w, rest'. apply Ascii.eqb_eq in Ec. repeat split; auto.
Qed.

Lemma split_from_nonempty (n : nat) :
  forall s cur, (String.length s <= n)%nat -> StudyIndex.split_from s cur <> [].
Proof.
  induction n as [| n IH]; intros [| c rest] cur Hlen; simpl in Hlen;
    try discriminate; try lia.
  destruct (split_from_cases c rest cur) as [-> | (w & rest' & _ & _ & _ & ->)].
  - apply IH. lia.
  - discriminate.
Qed.

(** X19.  The split of an ancestry string never returns an empty list,
    so the number of ancestries a sample count is divided by is at least
    one; a string without a comma is a single ancestry. *)
Theorem split_ancestries_never_empty (ancestry : string) :
  (1 <= List.length (StudyIndex.split_ancestries ancestry))%nat /\
  (StudyIndex.occurs "," ancestry = false ->
   StudyIndex.split_ancestries ancestry = [ancestry]).
Proof.
  split.
  - pose proof (split_from_nonempty (String.length ancestry) ancestry EmptyString
                                    (Nat.le_refl _)) as Hne.
    unfold StudyIndex.split_ancestries.
    destruct (StudyIndex.split_from ancestry EmptyString); [congruence | simpl; lia].
  - intros Hno. unfold StudyIndex.split_ancestries.
    now rewrite split_from_no_comma.
Qed.

Lemma split_from_join (n : nat) :
  forall s cur,
    (String.length s <= n)%nat ->
    StudyIndex.plain_blanks s = true ->
    String.concat ", " (StudyIndex.split_from s cur) = (cur ++ s)%string.
Proof.
  induction n as [| n IH]; intros [| c rest] cur Hlen Hplain; simpl in Hlen;
    try lia; try (simpl; now rewrite string_app_nil_r).
  simpl in Hplain. apply andb_true_iff in Hplain. destruct Hplain as (_ & Hrest).
  destruct (split_from_cases c rest cur)
    as [-> | (w & rest' & -> & -> & Hw & ->)].
  - rewrite IH by (lia || assumption). now rewrite string_app_assoc.
  - simpl in Hrest. apply andb_true_iff in Hrest. destruct Hrest as (Hblank & Hrest').
    rewrite Hw in Hblank. simpl in Hblank. apply Ascii.eqb_eq in Hblank. subst w.
    pose proof (IH rest' EmptyString ltac:(simpl in Hlen; lia) Hrest') as Hrec.
    pose proof (split_from_nonempty n rest' EmptyString
                                    ltac:(simpl in Hlen; lia)) as Hne.
    destruct (StudyIndex.split_from rest' EmptyString) as [| p ps]; [congruence |].
    cbn [String.concat]. cbn [String.concat] in Hrec. rewrite Hrec. reflexivity.
Qed.

(** X20.  Joining the split ancestries with a comma and a space gives
    back the ancestry string, when the white space of the string is made of
    plain spaces. *)
Theorem split_ancestries_join (ancestry : string) :
  StudyIndex.plain_blanks ancestry = true ->
  String.concat ", " (StudyIndex.split_ancestries ancestry) = ancestry.
Proof.
  intros Hplain. unfold StudyIndex.split_ancestries.
  now rewrite (split_from_join (String.length ancestry) ancestry EmptyString
                               (Nat.le_refl _) Hplain).
Qed.

(** X20 on a string of three populations, one with a comma inside
    parentheses. *)
Lemma split_ancestries_join_example :
  String.concat ", " (StudyIndex.split_ancestries
                        "European, Asian (East, South), African")
  = "European, Asian (East, South), African"%string.
Proof.
  apply split_ancestries_join. reflexivity.
Defined.

(** ** Discovery samples: ancestries and counts of the parsed list *)

Lemma array_distinct_In {A : Type} (dec : forall x y : A, {x = y} + {x <> y})
      (l : list A) (x : A) :
  In x (StudyIndex.array_distinct dec l) <-> In x l.
Proof.
  induction l as [| y l IH]; simpl; [tauto |].
  rewrite filter_In, IH. split.
  - intros [H | (H & _)]; auto.
  - intros [H | H]; [now left |].
    destruct (dec y x) as [E | E]; [now left | right; split; auto].
Qed.

Lemma array_distinct_is_NoDup {A : Type}
      (dec : forall x y : A, {x = y} + {x <> y}) (l : list A) :
  NoDup (StudyIndex.array_distinct dec l).
Proof.
  induction l as [| y l IH]; simpl; constructor.
  - rewrite filter_In. intros (_ & H).
    destruct (dec y y); [discriminate | congruence].
  - now apply NoDup_filter.
Qed.

Lemma fold_union_In {A : Type} (dec : forall x y : A, {x = y} + {x <> y})
      (ls : list (list A)) (x : A) :
  forall acc,
    In x (fold_left (StudyIndex.array_union dec) ls acc)
    <-> In x acc \/ exists l, In l ls /\ In x l.
Proof.
  induction ls as [| l ls IH]; intros acc; simpl.
  - split; [now left | intros [H | (l & [] & _)]; exact H].
  - rewrite IH. unfold StudyIndex.array_union.
    rewrite array_distinct_In, in_app_iff. split.
    + intros [[H | H] | (l' & Hl' & H)]; eauto.
    + intros [H | (l' & [<- | Hl'] & H)]; eauto.
Qed.

Lemma fold_union_NoDup {A : Type} (dec : forall x y : A, {x = y} + {x <> y})
      (ls : list (list A)) :
  forall acc, NoDup acc -> NoDup (fold_left (StudyIndex.array_union dec) ls acc).
Proof.
  induction ls as [| l ls IH]; intros acc Hacc; simpl; [exact Hacc |].
  apply IH. apply array_distinct_is_NoDup.
Qed.

(** Folding [_normalize_ancestries]: every entry of the merged list gains
    the counts of the folded entries that carry its label. *)
Lemma fold_normalize (entries : list StudyIndex.Sample) :
  forall merged : list StudyIndex.Sample,
    fold_left StudyIndex._normalize_ancestries entries merged
    = map (fun a : StudyIndex.Sample =>
             (fst a, (snd a + StudyIndex.count_for (fst a) entries)%Z))
          merged.
Proof.
  induction entries as [| e entries IH]; intros merged; simpl.
  - rewrite <- (map_id merged) at 1. apply map_ext.
    intros [a c]. simpl. f_equal. lia.
  - rewrite IH. unfold StudyIndex._normalize_ancestries. rewrite map_map.
    apply map_ext. intros [a c]. cbn [fst snd].
    destruct (String.eqb a (fst e)); cbn [fst snd]; f_equal; lia.
Qed.

(** The merged groups are the entries of the samples, sample by sample. *)
Lemma merged_groups (samples : list StudyIndex.Sample) :
  map StudyIndex._merge_ancestries_and_counts
      (combine (StudyIndex.exploded_ancestries samples)
               (StudyIndex.resolved_sample_count samples))
  = map StudyIndex.sample_entries samples.
Proof.
  unfold StudyIndex.resolved_sample_count, StudyIndex.exploded_ancestries.
  induction samples as [| s samples IH]; [reflexivity |].
  cbn [map combine]. rewrite IH. f_equal.
Qed.

Lemma parsed_sample_size_In (samples : list StudyIndex.Sample)
      (e : StudyIndex.Sample) :
  In e (StudyIndex.parsed_sample_size samples)
  <-> exists sample, In sample samples /\ In e (StudyIndex.sample_entries sample).
Proof.
  unfold StudyIndex.parsed_sample_size. rewrite merged_groups, fold_union_In.
  split.
  - intros [[] | (l & Hl & He)]. apply in_map_iff in Hl.
    destruct Hl as (s & <- & Hs). eauto.
  - intros (s & Hs & He). right. exists (StudyIndex.sample_entries s).
    split; [now apply in_map | exact He].
Qed.

Lemma unique_ancestries_labels (samples : list StudyIndex.Sample) :
  exists labels : list string,
    StudyIndex.unique_ancestries samples = map (fun a => (a, 0%Z)) labels /\
    NoDup labels /\
    forall a, In a labels
              <-> exists sample, In sample samples /\
                                 In a (StudyIndex.split_ancestries (fst sample)).
Proof.
  unfold StudyIndex.unique_ancestries.
  eexists. split; [reflexivity |]. split; [apply array_distinct_is_NoDup |].
  intros a. rewrite array_distinct_In, fold_union_In.
  unfold StudyIndex.exploded_ancestries. split.
  - intros [[] | (l & Hl & Ha)]. apply in_map_iff in Hl.
    destruct Hl as (s & <- & Hs). eauto.
  - intros (s & Hs & Ha). right.
    exists (StudyIndex.split_ancestries (fst s)). split; [| exact Ha].
    apply in_map_iff. eauto.
Qed.

Lemma parse_discovery_samples_shape (samples : list StudyIndex.Sample) :
  exists labels : list string,
    StudyIndex._parse_discovery_samples samples
    = map (fun a => (a, StudyIndex.count_for
                          a (StudyIndex.parsed_sample_size samples)))
          labels /\
    NoDup labels /\
    forall a, In a labels
              <-> exists sample, In sample samples /\
                                 In a (StudyIndex.split_ancestries (fst sample)).
Proof.
  destruct (unique_ancestries_labels samples) as (labels & Hu & Hnd & Hin).
  exists labels. split; [| split; assumption].
  unfold StudyIndex._parse_discovery_samples.
  rewrite fold_normalize, Hu, map_map. apply map_ext. intros a. reflexivity.
Qed.

Lemma count_for_bounds (a : string) (lo hi : Z) (entries : list StudyIndex.Sample) :
  (lo <= 0 <= hi)%Z ->
  (forall e, In e entries -> (lo <= snd e <= hi)%Z) ->
  (Z.of_nat (List.length entries) * lo
   <= StudyIndex.count_for a entries
   <= Z.of_nat (List.length entries) * hi)%Z.
Proof.
  intros H0. induction entries as [| e entries IH]; intros Hall.
  - simpl. lia.
  - cbn [StudyIndex.count_for List.length]. rewrite Nat2Z.inj_succ.
    pose proof (Hall e (or_introl eq_refl)) as He.
    specialize (IH (fun x Hx => Hall x (or_intror Hx))).
    destruct (String.eqb a (fst e)); lia.
Qed.

Lemma saturate_int_range (z : Z) :
  (- 2 ^ 31 <= StudyIndex.saturate_int z <= 2 ^ 31 - 1)%Z.
Proof. unfold StudyIndex.saturate_int. lia. Qed.

(** X21.  The parsed discovery samples name every ancestry once, and the
    ancestries named are exactly those the ancestry strings of the input
    samples split into. *)
Theorem parse_discovery_samples_ancestries (discovery_samples : list StudyIndex.Sample) :
  let parsed := StudyIndex._parse_discovery_samples discovery_samples in
  NoDup (map fst parsed) /\
  forall ancestry,
    In ancestry (map fst parsed)
    <-> exists sample, In sample discovery_samples /\
                       In ancestry (StudyIndex.split_ancestries (fst sample)).
Proof.
  intros parsed. subst parsed.
  destruct (parse_discovery_samples_shape discovery_samples)
    as (labels & -> & Hnd & Hin).
  rewrite map_map. cbn [fst]. rewrite map_id. split; assumption.
Qed.

(** X22.  The count of an ancestry in the parsed discovery samples is the
    sum of the counts of the distinct (ancestry, count) entries the samples
    split into: an entry that two samples give alike is counted once.  The
    sum stays within the number of entries times the range of an
    [IntegerType], so it fits a [LongType] for any list of fewer than
    [2 ^ 32] entries. *)
Theorem parse_discovery_samples_counts (discovery_samples : list StudyIndex.Sample) :
  let entries := StudyIndex.parsed_sample_size discovery_samples in
  NoDup entries /\
  (forall e, In e entries
             <-> exists sample, In sample discovery_samples /\
                                In e (StudyIndex.sample_entries sample)) /\
  forall ancestry count,
    In (ancestry, count) (StudyIndex._parse_discovery_samples discovery_samples) ->
    count = StudyIndex.count_for ancestry entries /\
    (Z.of_nat (List.length entries) * (- 2 ^ 31)
     <= count <= Z.of_nat (List.length entries) * (2 ^ 31 - 1))%Z.
Proof.
  intros entries. split; [| split].
  - apply fold_union_NoDup. constructor.
  - intros e. apply parsed_sample_size_In.
  - intros ancestry count Hin.
    destruct (parse_discovery_samples_shape discovery_samples)
      as (labels & Hshape & _ & _).
    rewrite Hshape in Hin. apply in_map_iff in Hin.
    destruct Hin as (a & [= -> <-] & _). fold entries.
    split; [reflexivity |].
    apply count_for_bounds; [lia |].
    intros e He. apply parsed_sample_size_In in He.
    destruct He as (s & _ & He). unfold StudyIndex.sample_entries in He.
    apply in_map_iff in He. destruct He as (x & <- & _). cbn [snd].
    apply saturate_int_range.
Qed.

(** ** Study index: LD populations and relative sample sizes *)

Lemma label_total_null (mapped : list (option string * Z)) :
  StudyIndexDataset.label_total None mapped = 0.
Proof. induction mapped as [| x mapped IH]; simpl; [reflexivity | rewrite IH; lra]. Qed.

Lemma eq_label_some (l : option string) (s : string) :
  Spark.holds (Harmonise.eq_col l (Some s)) = true <-> l = Some s.
Proof.
  destruct l as [t |]; simpl; [| split; discriminate].
  destruct (String.eqb t s) eqn:E.
  - apply String.eqb_eq in E. subst. tauto.
  - apply String.eqb_neq in E. split; [discriminate | congruence].
Qed.

Lemma eq_label_null (l : option string) :
  Spark.holds (Harmonise.eq_col l None) = false.
Proof. now destruct l. Qed.

(** Folding [_aggregate_samples_by_ancestry]: every population of the
    merged list gains the counts of the folded samples that carry its
    label. *)
Lemma fold_aggregate (mapped : list (option string * Z)) :
  forall merged : list StudyIndexDataset.Population,
    fold_left StudyIndexDataset._aggregate_samples_by_ancestry mapped merged
    = map (fun a : StudyIndexDataset.Population =>
             (fst a, snd a + StudyIndexDataset.label_total (fst a) mapped))
          merged.
Proof.
  induction mapped as [| x mapped IH]; intros merged;
    cbn [fold_left StudyIndexDataset.label_total].
  - rewrite <- (map_id merged) at 1. apply map_ext.
    intros [l c]. simpl. f_equal. lra.
  - rewrite IH. unfold StudyIndexDataset._aggregate_samples_by_ancestry.
    rewrite map_map. apply map_ext. intros [l c]. cbn [fst snd].
    destruct (Spark.holds (Harmonise.eq_col l (fst x))); cbn [fst snd];
      f_equal; lra.
Qed.

Lemma NoDup_fst_zero (l : list StudyIndexDataset.Population) :
  NoDup l -> (forall p, In p l -> snd p = 0) -> NoDup (map fst l).
Proof.
  induction 1 as [| x l Hx Hl IH]; intros Hz; simpl; constructor.
  - intros Hin. apply in_map_iff in Hin. destruct Hin as (y & Hy & Hyin).
    apply Hx. replace x with y; [exact Hyin |].
    pose proof (Hz x (or_introl eq_refl)) as Zx.
    pose proof (Hz y (or_intror Hyin)) as Zy.
    destruct x, y; simpl in *; congruence.
  - apply IH. intros p Hp. apply Hz. now right.
Qed.

Lemma aggregated_counts_shape (ld_panel_map : string -> option string)
      (samples : list StudyIndex.Sample) :
  exists labels : list (option string),
    StudyIndexDataset.aggregated_counts ld_panel_map samples
    = map (fun l => (l, StudyIndexDataset.label_total
                          l (StudyIndexDataset.mapped_ancestries
                               ld_panel_map samples)))
          labels /\
    NoDup labels /\
    forall l, In l labels
              <-> In l (map fst (StudyIndexDataset.mapped_ancestries
                                   ld_panel_map samples)).
Proof.
  unfold StudyIndexDataset.aggregated_counts.
  set (mapped := StudyIndexDataset.mapped_ancestries ld_panel_map samples).
  set (initial := StudyIndex.array_distinct
                    StudyIndexDataset.population_dec
                    (map (fun x : option string * Z => (fst x, 0)) mapped)).
  assert (Hzero : forall p, In p initial -> snd p = 0).
  { intros p Hp. apply array_distinct_In in Hp. apply in_map_iff in Hp.
    destruct Hp as (x & <- & _). reflexivity. }
  exists (map fst initial). split; [| split].
  - rewrite fold_aggregate, map_map. apply map_ext_in. intros a Ha.
    rewrite (Hzero a Ha). f_equal. lra.
  - apply NoDup_fst_zero; [apply array_distinct_is_NoDup | exact Hzero].
  - intros l. rewrite !in_map_iff. split.
    + intros (p & <- & Hp). apply array_distinct_In in Hp.
      apply in_map_iff in Hp. destruct Hp as (x & <- & Hx).
      exists x. split; [reflexivity | exact Hx].
    + intros (x & <- & Hx). exists (fst x, 0). split; [reflexivity |].
      apply array_distinct_In. apply in_map_iff. eauto.
Qed.

Lemma fold_left_sizes (l : list StudyIndexDataset.Population) :
  forall acc,
    fold_left (fun total (pop : StudyIndexDataset.Population) => total + snd pop)
              l acc
    = acc + Spark.total (map snd l).
Proof.
  induction l as [| p l IH]; intros acc; simpl; [lra |]. rewrite IH. lra.
Qed.

Lemma total_map_plus {A : Type} (f g : A -> R) (l : list A) :
  Spark.total (map (fun x => f x + g x) l)
  = Spark.total (map f l) + Spark.total (map g l).
Proof. induction l as [| x l IH]; simpl; [lra | rewrite IH; lra]. Qed.

Lemma total_map_zero {A : Type} (f : A -> R) (l : list A) :
  (forall x, In x l -> f x = 0) -> Spark.total (map f l) = 0.
Proof.
  induction l as [| x l IH]; intros H; simpl; [reflexivity |].
  rewrite (H x) by now left. rewrite IH; [lra |].
  intros y Hy. apply H. now right.
Qed.

Lemma total_map_member {A : Type} (f : A -> R) (l : list A) (x : A) :
  (forall y, In y l -> 0 <= f y) -> In x l -> f x <= Spark.total (map f l).
Proof.
  induction l as [| y l IH]; intros Hpos Hin; [inversion Hin |]. simpl.
  assert (Hrest : 0 <= Spark.total (map f l)).
  { clear IH Hin. induction l as [| z l IHl]; simpl; [lra |].
    pose proof (Hpos z (or_intror (or_introl eq_refl))).
    assert (0 <= Spark.total (map f l)); [| lra].
    apply IHl. intros w [-> | Hw]; apply Hpos; [now left | right; now right]. }
  destruct Hin as [-> | Hin].
  - lra.
  - pose proof (Hpos y (or_introl eq_refl)).
    assert (f x <= Spark.total (map f l)); [| lra].
    apply IH; [| exact Hin]. intros w Hw. apply Hpos. now right.
Qed.

(** Among distinct labels that hold the label of a sample, exactly one is
    equal to it, unless the label of the sample is null. *)
Lemma indicator_labels (labels : list (option string)) (k : option string) (c : R) :
  NoDup labels -> In k labels ->
  Spark.total (map (fun l => if Spark.holds (Harmonise.eq_col l k) then c else 0)
                   labels)
  = match k with Some _ => c | None => 0 end.
Proof.
  destruct k as [s |].
  - induction 1 as [| l labels Hl Hnd IH]; intros Hin; [inversion Hin |].
    simpl. destruct Hin as [-> | Hin].
    + rewrite (proj2 (eq_label_some (Some s) s) eq_refl).
      rewrite total_map_zero; [lra |].
      intros x Hx. destruct (Spark.holds (Harmonise.eq_col x (Some s))) eqn:E;
        [| reflexivity].
      apply eq_label_some in E. subst x. contradiction.
    + rewrite (IH Hin).
      destruct (Spark.holds (Harmonise.eq_col l (Some s))) eqn:E; [| lra].
      apply eq_label_some in E. subst l. contradiction.
  - intros _ _. apply total_map_zero. intros x _. now rewrite eq_label_null.
Qed.

Lemma sum_label_totals (labels : list (option string))
      (mapped : list (option string * Z)) :
  NoDup labels ->
  (forall x, In x mapped -> In (fst x) labels) ->
  Spark.total (map (fun l => StudyIndexDataset.label_total l mapped) labels)
  = StudyIndexDataset.mapped_total mapped.
Proof.
  intros Hnd. induction mapped as [| x mapped IH]; intros Hin;
    cbn [StudyIndexDataset.label_total StudyIndexDataset.mapped_total].
  - now apply total_map_zero.
  - rewrite (total_map_plus
               (fun l => if Spark.holds (Harmonise.eq_col l (fst x))
                         then IZR (snd x) else 0)
               (fun l => StudyIndexDataset.label_total l mapped)).
    rewrite indicator_labels; [| exact Hnd | apply Hin; now left].
    rewrite IH; [reflexivity |]. intros y Hy. apply Hin. now right.
Qed.

Lemma total_sample_count_labels (ld_panel_map : string -> option string)
      (samples : list StudyIndex.Sample) (labels : list (option string)) :
  StudyIndexDataset.aggregated_counts ld_panel_map samples
  = map (fun l => (l, StudyIndexDataset.label_total
                        l (StudyIndexDataset.mapped_ancestries
                             ld_panel_map samples)))
        labels ->
  StudyIndexDataset.total_sample_count ld_panel_map samples
  = Spark.total
      (map (fun l => StudyIndexDataset.label_total
                       l (StudyIndexDataset.mapped_ancestries ld_panel_map samples))
           labels).
Proof.
  intros Hshape. unfold StudyIndexDataset.total_sample_count.
  rewrite fold_left_sizes, Hshape, map_map. cbn [snd]. lra.
Qed.

Lemma label_total_nonneg (l : option string) (mapped : list (option string * Z)) :
  (forall x, In x mapped -> (0 <= snd x)%Z) ->
  0 <= StudyIndexDataset.label_total l mapped.
Proof.
  induction mapped as [| x mapped IH]; intros Hpos; simpl; [lra |].
  pose proof (IZR_le _ _ (Hpos x (or_introl eq_refl))) as Hx.
  assert (0 <= StudyIndexDataset.label_total l mapped)
    by (apply IH; intros y Hy; apply Hpos; now right).
  destruct (Spark.holds (Harmonise.eq_col l (fst x))); lra.
Qed.

(** X23.  The aggregated counts hold every LD population of the mapped
    samples once, with the sum of the sample counts of the samples mapped
    to it; samples whose ancestry has no LD population share one
    population with a null label, whose count stays 0. *)
Theorem aggregated_counts_by_population (ld_panel_map : string -> option string)
        (discovery_samples : list StudyIndex.Sample) :
  let mapped := StudyIndexDataset.mapped_ancestries ld_panel_map discovery_samples in
  let counts := StudyIndexDataset.aggregated_counts ld_panel_map discovery_samples in
  NoDup (map fst counts) /\
  (forall label, In label (map fst counts) <-> In label (map fst mapped)) /\
  (forall label size,
      In (label, size) counts -> size = StudyIndexDataset.label_total label mapped) /\
  (forall size, In (None, size) counts -> size = 0).
Proof.
  intros mapped counts.
  destruct (aggregated_counts_shape ld_panel_map discovery_samples)
    as (labels & Hshape & Hnd & Hin).
  fold mapped in Hshape, Hin. fold counts in Hshape.
  assert (Hfst : map fst counts = labels).
  { rewrite Hshape, map_map. cbn [fst]. apply map_id. }
  assert (Hsize : forall label size,
             In (label, size) counts ->
             size = StudyIndexDataset.label_total label mapped).
  { intros label size H. rewrite Hshape in H. apply in_map_iff in H.
    destruct H as (l & [= -> <-] & _). reflexivity. }
  rewrite Hfst. split; [exact Hnd |]. split; [exact Hin |].
  split; [exact Hsize |].
  intros size H. rewrite (Hsize _ _ H). apply label_total_null.
Qed.

(** X24.  The total sample count is the sum of the sample counts of the
    samples whose ancestry has an LD population: a sample with an ancestry
    the map does not hold is left out of the total. *)
Theorem total_sample_count_mapped (ld_panel_map : string -> option string)
        (discovery_samples : list StudyIndex.Sample) :
  StudyIndexDataset.total_sample_count ld_panel_map discovery_samples
  = StudyIndexDataset.mapped_total
      (StudyIndexDataset.mapped_ancestries ld_panel_map discovery_samples).
Proof.
  destruct (aggregated_counts_shape ld_panel_map discovery_samples)
    as (labels & Hshape & Hnd & Hin).
  rewrite (total_sample_count_labels _ _ _ Hshape).
  apply sum_label_totals; [exact Hnd |].
  intros x Hx. apply Hin. now apply in_map.
Qed.

(** X25.  When the total sample count is not zero every relative sample
    size is present and the relative sample sizes add up to 1; when it is
    zero every relative sample size is null. *)
Theorem relative_sample_sizes_sum (ld_panel_map : string -> option string)
        (discovery_samples : list StudyIndex.Sample) :
  let total := StudyIndexDataset.total_sample_count ld_panel_map discovery_samples in
  let result :=
    StudyIndexDataset.aggregate_and_map_ancestries ld_panel_map discovery_samples in
  (total <> 0 ->
   exists sizes, map snd result = map Some sizes /\ Spark.total sizes = 1) /\
  (total = 0 -> Forall (fun p => snd p = None) result).
Proof.
  intros total result. subst result.
  unfold StudyIndexDataset.aggregate_and_map_ancestries. fold total. split.
  - intros Hne.
    exists (map (fun x => x * / total)
                (map snd (StudyIndexDataset.aggregated_counts
                            ld_panel_map discovery_samples))).
    split.
    + rewrite !map_map. apply map_ext. intros p. cbn [snd Spark.div].
      destruct (Req_dec_T total 0); [contradiction | reflexivity].
    + rewrite (total_scale _ (fun x => x) (/ total)), map_id.
      assert (Ht : Spark.total
                     (map snd (StudyIndexDataset.aggregated_counts
                                 ld_panel_map discovery_samples))
                   = total).
      { unfold total, StudyIndexDataset.total_sample_count.
        rewrite fold_left_sizes. lra. }
      rewrite Ht. now apply Rinv_r.
  - intros Hz. apply Forall_forall. intros p Hp. apply in_map_iff in Hp.
    destruct Hp as (q & <- & _). cbn [snd Spark.div].
    destruct (Req_dec_T total 0); [reflexivity | contradiction].
Qed.

(** X26.  When no sample count is negative, every relative sample size
    that is present lies between 0 and 1. *)
Theorem relative_sample_sizes_range (ld_panel_map : string -> option string)
        (discovery_samples : list StudyIndex.Sample) :
  Forall (fun sample => (0 <= snd sample)%Z) discovery_samples ->
  Forall (fun p : option string * option R =>
            match snd p with
            | Some size => 0 <= size <= 1
            | None => True
            end)
         (StudyIndexDataset.aggregate_and_map_ancestries
            ld_panel_map discovery_samples).
Proof.
  intros Hpos. rewrite Forall_forall in Hpos.
  destruct (aggregated_counts_shape ld_panel_map discovery_samples)
    as (labels & Hshape & Hnd & Hin).
  pose proof (total_sample_count_labels _ _ _ Hshape) as Htotal.
  set (mapped := StudyIndexDataset.mapped_ancestries ld_panel_map discovery_samples)
    in *.
  assert (Hmapped : forall x, In x mapped -> (0 <= snd x)%Z).
  { intros x Hx. apply in_map_iff in Hx. destruct Hx as (s & <- & Hs).
    apply (Hpos s Hs). }
  apply Forall_forall. intros p Hp.
  unfold StudyIndexDataset.aggregate_and_map_ancestries in Hp.
  rewrite Hshape, map_map in Hp. apply in_map_iff in Hp.
  destruct Hp as (l & <- & Hl). cbn [fst snd Spark.div].
  destruct (Req_dec_T (StudyIndexDataset.total_sample_count
                         ld_panel_map discovery_samples) 0) as [| Hne];
    [exact I |].
  set (total := StudyIndexDataset.total_sample_count ld_panel_map discovery_samples)
    in *.
  pose proof (label_total_nonneg l mapped Hmapped) as H0.
  assert (Hle : StudyIndexDataset.label_total l mapped <= total).
  { rewrite Htotal.
    apply (total_map_member
             (fun l => StudyIndexDataset.label_total l mapped) labels l);
      [| exact Hl].
    intros y _. now apply label_total_nonneg. }
  assert (Ht : 0 < total) by lra.
  pose proof (Rinv_0_lt_compat _ Ht) as Hinv.
  unfold Rdiv. split.
  - apply Rmult_le_pos; lra.
  - replace 1 with (total * / total) by now apply Rinv_r.
    apply Rmult_le_compat_r; lra.
Qed.

(** X26 on three samples, one of an ancestry without LD population. *)
Lemma relative_sample_sizes_range_example :
  Forall (fun p : option string * option R =>
            match snd p with
            | Some size => 0 <= size <= 1
            | None => True
            end)
         (StudyIndexDataset.aggregate_and_map_ancestries
            StudyIndexDataset.two_label_map
            [("European"%string, 10%Z); ("African"%string, 30%Z);
             ("Asian"%string, 5%Z)]).
Proof.
  apply relative_sample_sizes_range.
  repeat constructor; simpl; lia.
Defined.
